(** * Single-server queue simulation ([discrete_events_simulation.py])

    A shallow embedding of the discrete-event engine and the properties of
    its event list, trajectory and arrival stream.

    Numbers.  The program computes with IEEE doubles.  In the engine a
    double is read as an exact rational, or one of [+inf], [-inf], [nan];
    rounding, overflow, underflow and the sign of zero are left out, and
    the parameters of a scenario are finite.  Comparisons with [nan] are
    false, as in Python.  What is proved of the engine uses of the
    arithmetic only what rounding keeps: the order of the numbers, that
    adding a duration that is not negative does not move an instant
    backwards, and that a duration drawn with a positive rate is not
    negative and a travel time [t0 * u] lies between 0 and [t0].  Where
    rounding itself decides, which is whether the
    accumulating generation clock ever passes the horizon, the loop is
    read once more over binary64 numbers (module [F64]).

    Randomness.  The process-wide uniform source [np.random.rand] is a
    stream of draws indexed by a cursor that every call advances by one.
    A draw carries the uniform value and the value [-np.log] takes on it
    (the logarithm is numpy's, not this repository's). *)

From Stdlib Require Import QArith ZArith List Bool Lia ZifyBool Lqa Sorted Permutation.
From Stdlib Require PrimFloat.
Import ListNotations.

Open Scope Q_scope.

(** ** Extended numbers *)

Module Ext.

Inductive ext : Type :=
| Fin (q : Q)
| PInf
| NInf
| NaN.

Definition Qltb (a b : Q) : bool := negb (Qle_bool b a).

(** [x <= y] *)
Definition leb (x y : ext) : bool :=
  match x, y with
  | NaN, _ | _, NaN => false
  | NInf, _ => true
  | _, PInf => true
  | Fin a, Fin b => Qle_bool a b
  | _, _ => false
  end.

(** [x < y] *)
Definition ltb (x y : ext) : bool :=
  match x, y with
  | NaN, _ | _, NaN => false
  | NInf, NInf => false
  | NInf, _ => true
  | PInf, _ => false
  | _, PInf => true
  | Fin a, Fin b => Qltb a b
  | _, _ => false
  end.

(** [x > y] *)
Definition gtb (x y : ext) : bool := ltb y x.

(** [x == y] *)
Definition eqb (x y : ext) : bool := leb x y && leb y x.

(** [x + y] *)
Definition add (x y : ext) : ext :=
  match x, y with
  | NaN, _ | _, NaN => NaN
  | PInf, NInf | NInf, PInf => NaN
  | PInf, _ | _, PInf => PInf
  | NInf, _ | _, NInf => NInf
  | Fin a, Fin b => Fin (a + b)
  end.

(** [x / d] for a finite divisor; numpy returns an infinity (or [nan] for
    [0/0]) on a zero divisor and carries on.  The zero divisor is [+0.0];
    the quotient is exact. *)
Definition div (x : ext) (d : Q) : ext :=
  match x with
  | NaN => NaN
  | Fin a =>
      if Qeq_bool d 0 then
        (if Qltb 0 a then PInf else if Qltb a 0 then NInf else NaN)
      else Fin (a / d)
  | PInf => if Qle_bool 0 d then PInf else NInf
  | NInf => if Qle_bool 0 d then NInf else PInf
  end.

(** Neither [nan] nor [-inf]. *)
Definition good (x : ext) : Prop :=
  match x with Fin _ | PInf => True | _ => False end.

(** Not [nan]. *)
Definition nonan (x : ext) : Prop :=
  match x with NaN => False | _ => True end.

(** Non-negative and not [nan]. *)
Definition nonneg (x : ext) : Prop :=
  match x with Fin a => 0 <= a | PInf => True | _ => False end.

Definition le (x y : ext) : Prop := leb x y = true.

End Ext.
Import Ext.

(** ** The uniform source *)

Record draw : Type := mkDraw {
  u_val : Q;        (* the value returned by np.random.rand() *)
  u_neglog : ext    (* -np.log of that value *)
}.

Definition source : Type := nat -> draw.

(** [np.random.rand()]: the draw under the cursor, and the cursor moved on. *)
Definition rand (src : source) (c : nat) : draw * nat := (src c, S c).

(** What numpy guarantees of a draw: it lies in [[0,1)]; [-log] is [+inf]
    at 0 and a positive number between [1-u] and [(1-u)/u] elsewhere. *)
Definition draw_ok (d : draw) : Prop :=
  0 <= u_val d /\ u_val d < 1 /\
  match u_neglog d with
  | PInf => u_val d == 0
  | Fin l => 0 < u_val d /\ 0 < l /\ 1 - u_val d <= l /\ l * u_val d <= 1 - u_val d
  | _ => False
  end.

Definition draws_ok (src : source) : Prop := forall k, draw_ok (src k).

(** ** Random variates and event generators *)

(** [exponential_rng(lam)]: one draw, transformed. *)
Definition exponential_rng (lam : Q) (src : source) (c : nat) : ext * nat :=
  let (d, c') := rand src c in
  (div (u_neglog d) lam, c').

Record Generation : Type := mkGeneration { g_lam : Q; g_time : ext }.

Definition Generation_init (lam : Q) : Generation :=
  {| g_lam := lam; g_time := Fin 0 |}.

Definition generate (g : Generation) (src : source) (c : nat) : Generation * nat :=
  let (e, c') := exponential_rng (g_lam g) src c in
  ({| g_lam := g_lam g; g_time := add (g_time g) e |}, c').

(** [Arrival(t0).travel()]: the travel time [tt]. *)
Definition travel (t0 : Q) (src : source) (c : nat) : ext * nat :=
  let (d, c') := rand src c in
  (Fin (t0 * u_val d), c').

(** [Departure(mu).depart()]: the service time. *)
Definition depart (mu : Q) (src : source) (c : nat) : ext * nat :=
  exponential_rng mu src c.

(** ** Scenario *)

Record Scenario : Type := mkScenario {
  demand_duration : Q;
  t0 : Q;
  lam : Q;
  mu : Q
}.

Inductive exn : Type := StopIteration.

(** [Scenario.__init__]: stores its four arguments, checks nothing. *)
Definition Scenario_init (dd t0 lam mu : Q) : exn + Scenario :=
  inr {| demand_duration := dd; t0 := t0; lam := lam; mu := mu |}.

(** The default arguments of [Scenario()]. *)
Definition default_scenario : Scenario :=
  {| demand_duration := 50; t0 := 1; lam := 1; mu := 1 |}.

(** ** Arrival pre-generation

    The first [while True] of [simulate]: each round advances the generation
    clock, draws a travel time, appends the arrival instant to [Ts] and only
    then tests it against [demand_duration]. *)

Fixpoint pregen (fuel : nat) (sc : Scenario) (src : source)
    (generation : Generation) (Ts : list ext) (c : nat)
    : option (list ext * nat) :=
  match fuel with
  | O => None
  | S fuel' =>
      let (generation', c1) := generate generation src c in
      let tg := g_time generation' in
      let (tt, c2) := travel (t0 sc) src c1 in
      let ta := add tg tt in
      let Ts' := Ts ++ [ta] in
      if gtb ta (Fin (demand_duration sc)) then Some (Ts', c2)
      else pregen fuel' sc src generation' Ts' c2
  end.

(** [Ts.sort()]: a stable sort that compares with [<] only. *)
Fixpoint insert (x : ext) (l : list ext) : list ext :=
  match l with
  | [] => [x]
  | y :: l' => if ltb x y then x :: y :: l' else y :: insert x l'
  end.

Fixpoint sort (l : list ext) : list ext :=
  match l with
  | [] => []
  | x :: l' => insert x (sort l')
  end.

(** ** The time-advance loop *)

Module St.
Record State : Type := mk {
  t : ext;               (* time variable *)
  n : Z;                 (* system state variable *)
  NA : Z;                (* counter of arrivals *)
  ND : Z;                (* counter of departures *)
  EL0 : ext;             (* EL[0], next arrival *)
  EL1 : ext;             (* EL[1], next departure *)
  Ts : list ext;         (* what the iterator Ts has still to yield *)
  cur : nat;             (* cursor of the uniform source *)
  times : list ext;
  queues : list Z;
  As : list ext;
  Ds : list ext
}.
End St.
Definition State : Type := St.State.

Inductive phase : Type := PhaseA | PhaseB | PhaseC.

Definition condA (sc : Scenario) (st : State) : bool :=
  leb (St.EL0 st) (St.EL1 st) && leb (St.EL0 st) (Fin (demand_duration sc)).

Definition condB (sc : Scenario) (st : State) : bool :=
  ltb (St.EL1 st) (St.EL0 st) && ltb (St.EL1 st) (Fin (demand_duration sc)).

Definition condC (sc : Scenario) (st : State) : bool :=
  gtb (St.EL0 st) (Fin (demand_duration sc))
  || gtb (St.EL1 st) (Fin (demand_duration sc)).

(** The branch the [if]/[elif]/[elif] chain selects, if any. *)
Definition branch (sc : Scenario) (st : State) : option phase :=
  if condA sc st then Some PhaseA
  else if condB sc st then Some PhaseB
  else if condC sc st then Some PhaseC
  else None.

Inductive outcome : Type :=
| Continue (st : State)
| Break (st : State)
| Raise (e : exn).

(** Lines 120-136: process an arrival. *)
Definition arrival (sc : Scenario) (src : source) (st : State) : outcome :=
  let t := St.EL0 st in
  let n := (St.n st + 1)%Z in
  let NA := (St.NA st + 1)%Z in
  let times := St.times st ++ [t] in
  let As := St.As st ++ [t] in
  let queues := St.queues st ++ [n] in
  match St.Ts st with
  | [] => Raise StopIteration
  | Tt :: Ts' =>
      if (n =? 1)%Z then
        let (d, c') := depart (mu sc) src (St.cur st) in
        let td := add t d in
        Continue (St.mk t n NA (St.ND st) Tt td Ts' c' times queues As (St.Ds st))
      else
        Continue (St.mk t n NA (St.ND st) Tt (St.EL1 st) Ts' (St.cur st)
                        times queues As (St.Ds st))
  end.

(** Lines 138-155: process a departure before the horizon. *)
Definition departure (sc : Scenario) (src : source) (st : State) : outcome :=
  let t := St.EL1 st in
  let n := (St.n st - 1)%Z in
  let ND := (St.ND st + 1)%Z in
  let times := St.times st ++ [t] in
  let Ds := St.Ds st ++ [t] in
  let queues := St.queues st ++ [n] in
  if (n >? 0)%Z then
    let (d, c') := depart (mu sc) src (St.cur st) in
    let td := add t d in
    Continue (St.mk t n (St.NA st) ND (St.EL0 st) td (St.Ts st) c'
                    times queues (St.As st) Ds)
  else
    Continue (St.mk t n (St.NA st) ND (St.EL0 st) PInf (St.Ts st) (St.cur st)
                    times queues (St.As st) Ds).

(** Lines 167-179: one round of the inner [while n > 0]. *)
Definition drain_round (sc : Scenario) (src : source) (st : State) : State :=
  let (d, c') := depart (mu sc) src (St.cur st) in
  let td := add (St.t st) d in
  let t := td in
  let n := (St.n st - 1)%Z in
  let ND := (St.ND st + 1)%Z in
  St.mk t n (St.NA st) ND (St.EL0 st) td (St.Ts st) c'
        (St.times st ++ [t]) (St.queues st ++ [n]) (St.As st) (St.Ds st ++ [t]).

(** The inner [while n > 0]; [n] falls by one a round, so [k = n] rounds
    are all it can make. *)
Fixpoint drain_loop (k : nat) (sc : Scenario) (src : source) (st : State) : State :=
  match k with
  | O => st
  | S k' =>
      if (St.n st >? 0)%Z then drain_loop k' sc src (drain_round sc src st)
      else st
  end.

(** Lines 158-165: the departure that opens the drain; [EL[1]] is read,
    not written. *)
Definition drain_first (st : State) : State :=
  let t := St.EL1 st in
  let n := (St.n st - 1)%Z in
  let ND := (St.ND st + 1)%Z in
  St.mk t n (St.NA st) ND (St.EL0 st) (St.EL1 st) (St.Ts st) (St.cur st)
        (St.times st ++ [t]) (St.queues st ++ [n]) (St.As st) (St.Ds st ++ [t]).

(** Lines 157-181: after the horizon. *)
Definition drain (sc : Scenario) (src : source) (st : State) : outcome :=
  if (St.n st >? 0)%Z then
    let st1 := drain_first st in
    Continue (drain_loop (Z.to_nat (St.n st1)) sc src st1)
  else Break st.

(** One pass through the body of the outer [while True]. *)
Definition step (sc : Scenario) (src : source) (st : State) : outcome :=
  match branch sc st with
  | Some PhaseA => arrival sc src st
  | Some PhaseB => departure sc src st
  | Some PhaseC => drain sc src st
  | None => Continue st
  end.

Fixpoint main_loop (fuel : nat) (sc : Scenario) (src : source) (st : State)
    : option (exn + State) :=
  match fuel with
  | O => None
  | S fuel' =>
      match step sc src st with
      | Continue st' => main_loop fuel' sc src st'
      | Break st' => Some (inr st')
      | Raise e => Some (inl e)
      end
  end.

(** The state on entry to the main loop, after [T0 = next(Ts)]. *)
Definition init_state (T0 : ext) (Ts : list ext) (c : nat) : State :=
  St.mk (Fin 0) 0%Z 0%Z 0%Z T0 PInf Ts c [Fin 0] [0%Z] [] [].

(** What [simulate] returns. *)
Record Result : Type := mkResult {
  r_times : list ext;
  r_queues : list Z;
  r_As : list ext;
  r_Ds : list ext
}.

Definition result_of (st : State) : Result :=
  mkResult (St.times st) (St.queues st) (St.As st) (St.Ds st).

(** Lines 87-117: pre-generation, [Ts.sort()], [Ts = iter(Ts)] and
    [T0 = next(Ts)].  [None]: pre-generation has not ended within [fuel]
    rounds. *)
Definition entry (fuel : nat) (src : source) (sc : Scenario)
    : option (exn + State) :=
  match pregen fuel sc src (Generation_init (lam sc)) [] 0%nat with
  | None => None
  | Some (Ts, c) =>
      match sort Ts with
      | [] => Some (inl StopIteration)
      | T0 :: Ts' => Some (inr (init_state T0 Ts' c))
      end
  end.

(** [simulate(scenario)].  [None]: one of the two loops has not ended
    within [fuel] rounds. *)
Definition simulate (fuel : nat) (src : source) (sc : Scenario)
    : option (exn + Result) :=
  match entry fuel src sc with
  | None => None
  | Some (inl e) => Some (inl e)
  | Some (inr st0) =>
      match main_loop fuel sc src st0 with
      | None => None
      | Some (inl e) => Some (inl e)
      | Some (inr st) => Some (inr (result_of st))
      end
  end.

(** The result of a run with nothing in it. *)
Definition empty_run : Result := mkResult [Fin 0] [0%Z] [] [].

(** The first arrival instant that pre-generation computes. *)
Definition first_instant (sc : Scenario) (src : source) : ext :=
  add (add (Fin 0) (div (u_neglog (src 0%nat)) (lam sc)))
      (Fin (t0 sc * u_val (src 1%nat))).

(** ** Loop heads

    The states in which the condition chain of the outer loop is evaluated:
    the entry state and every state a pass through the body continues
    with. *)
Inductive loop_head (sc : Scenario) (src : source) (st0 : State) : State -> Prop :=
| head_entry : loop_head sc src st0 st0
| head_step (st st' : State) :
    loop_head sc src st0 st ->
    step sc src st = Continue st' ->
    loop_head sc src st0 st'.

(** The loop heads reached by arrival and departure processing alone, the
    drain after the horizon not having run yet. *)
Inductive loop_head_AB (sc : Scenario) (src : source) (st0 : State) : State -> Prop :=
| headAB_entry : loop_head_AB sc src st0 st0
| headAB_step (st st' : State) (ph : phase) :
    loop_head_AB sc src st0 st ->
    branch sc st = Some ph -> ph <> PhaseC ->
    step sc src st = Continue st' ->
    loop_head_AB sc src st0 st'.

(** A source from a finite list of draws, continued by a default draw. *)
Definition source_of (l : list draw) (d : draw) : source := fun k => nth k l d.

(** ** Predicates used in the statements *)

(** The sign of the rate decides on which side the infinite values of a
    clock that accumulates exponential draws can lie. *)
Definition sided (b : bool) (x : ext) : Prop :=
  match x with
  | Fin _ => True
  | PInf => b = true
  | NInf => b = false
  | NaN => False
  end.

(** The generation clock and the arrival instant of the round of
    pre-generation that starts with the cursor at [c]. *)
Definition next_tg (src : source) (g : Generation) (c : nat) : ext :=
  add (g_time g) (div (u_neglog (src c)) (g_lam g)).

Definition next_ta (sc : Scenario) (src : source) (g : Generation) (c : nat) : ext :=
  add (next_tg src g c) (Fin (t0 sc * u_val (src (S c)))).

(** The service time drawn with the cursor where [st] has it. *)
Definition service (sc : Scenario) (src : source) (st : State) : ext :=
  div (u_neglog (src (St.cur st))) (mu sc).

(** ** Invariants of the main loop *)

(** The event-list invariant: no customer, no pending departure. *)
Definition idle_inv (st : State) : Prop :=
  (0 <= St.n st)%Z /\ (St.n st = 0%Z -> St.EL1 st = PInf).

(** Customers in the system are the arrivals that have not departed; the
    last recorded queue length is the current one; with nobody in the
    system the departure branch is closed. *)
Definition balanced (sc : Scenario) (st : State) : Prop :=
  (0 <= St.n st)%Z /\
  (St.n st = 0%Z -> condB sc st = false) /\
  (exists q, St.queues st = q ++ [St.n st]) /\
  Z.of_nat (length (St.As st)) = (Z.of_nat (length (St.Ds st)) + St.n st)%Z.

(** The instants still to come, [EL[0]] first, end with one beyond the
    horizon. *)
Definition sentinel (sc : Scenario) (st : State) : Prop :=
  exists init x,
    St.EL0 st :: St.Ts st = init ++ [x] /\
    gtb x (Fin (demand_duration sc)) = true.

(** Non-decreasing. *)
Definition ext_sorted (l : list ext) : Prop := Sorted le l.

(** The trajectory and the clock, slots and iterator it is built from. *)
Record orderly (sc : Scenario) (st : State) : Prop := {
  ord_len : length (St.times st) = length (St.queues st);
  ord_time0 : exists l, St.times st = Fin 0 :: l;
  ord_queue0 : exists l, St.queues st = 0%Z :: l;
  ord_queues : Forall (fun q => (0 <= q)%Z) (St.queues st);
  ord_times : ext_sorted (St.times st);
  ord_upto : Forall (fun x => le x (St.t st)) (St.times st);
  ord_t : good (St.t st);
  ord_EL1 : good (St.EL1 st);
  ord_t_EL1 : le (St.t st) (St.EL1 st);
  ord_Ts_good : Forall good (St.EL0 st :: St.Ts st);
  ord_Ts : ext_sorted (St.EL0 st :: St.Ts st);
  ord_t_EL0 :
    leb (St.EL0 st) (Fin (demand_duration sc)) = true ->
    le (St.t st) (St.EL0 st)
}.

(** All that the main loop keeps. *)
Definition loop_inv (sc : Scenario) (st : State) : Prop :=
  balanced sc st /\ orderly sc st /\ sentinel sc st.

(** ** Termination *)

(** What the main loop has left to do: two units an instant in the
    iterator, one a customer in the system. *)
Definition measure (st : State) : nat :=
  (2 * length (St.Ts st) + Z.to_nat (St.n st))%nat.

(** ** Sample runs *)

(** Arrivals at 0.6 and (beyond the horizon) 2.2; one service of 2.3. *)
Definition demo_scenario : Scenario :=
  {| demand_duration := 1; t0 := 1; lam := 1; mu := 1 |}.

Definition demo_source : source :=
  source_of [mkDraw (3 # 5) (Fin (1 # 2)); mkDraw (1 # 10) (Fin (23 # 10));
             mkDraw (3 # 10) (Fin (6 # 5)); mkDraw (1 # 2) (Fin (7 # 10));
             mkDraw (1 # 10) (Fin (23 # 10))]
            (mkDraw (1 # 2) (Fin (7 # 10))).

(** Arrivals at 1, 3.3 and (beyond the horizon) 12.3; the first service
    lasts 2.3, so that the first departure falls due at 3.3 as well. *)
Definition tie_scenario : Scenario :=
  {| demand_duration := 10; t0 := 1; lam := 1; mu := 1 |}.

Definition tie_source : source :=
  source_of [mkDraw (3 # 5) (Fin (1 # 2)); mkDraw (1 # 2) (Fin (7 # 10));
             mkDraw (1 # 10) (Fin (23 # 10)); mkDraw (1 # 2) (Fin (7 # 10));
             mkDraw (1 # 10000) (Fin 9); mkDraw (1 # 2) (Fin (7 # 10));
             mkDraw (1 # 10) (Fin (23 # 10))]
            (mkDraw (1 # 2) (Fin (7 # 10))).

(** The state of the tie run after its first arrival: both slots at 3.3. *)
Definition tie_state : State :=
  St.mk (Fin (4 # 4)) 1 1 0 (Fin (132 # 40)) (Fin (132 # 40)) [Fin (492 # 40)]
        7 [Fin 0; Fin (4 # 4)] [0%Z; 1%Z] [Fin (4 # 4)] [].

(** ** Further invariants of a run *)

(** Consecutive elements differ by exactly one. *)
Definition unit_walk (l : list Z) : Prop :=
  Sorted (fun a b => b = (a + 1)%Z \/ b = (a - 1)%Z) l.

(** The trajectory as a ledger: the queue lengths move by unit steps and
    end with the current one, and the event times are the arrival and the
    departure times, with the initial 0. *)
Record ledger (st : State) : Prop := {
  led_walk : unit_walk (St.queues st);
  led_last : exists q, St.queues st = q ++ [St.n st];
  led_perm : Permutation (St.times st) (Fin 0 :: St.As st ++ St.Ds st)
}.

(** The arrivals recorded so far, then the instants still to come, make up
    the sorted list [full]. *)
Definition served (full : list ext) (st : State) : Prop :=
  St.As st ++ St.EL0 st :: St.Ts st = full.

(** Arrivals and departures in the order of the clock: no recorded instant
    is after the clock, the departures never decrease, and each departure
    recorded is not before the arrival of the same rank. *)
Record chron (st : State) : Prop := {
  chr_Ds : ext_sorted (St.Ds st);
  chr_Ds_t : Forall (fun x => le x (St.t st)) (St.Ds st);
  chr_As_t : Forall (fun x => le x (St.t st)) (St.As st);
  chr_pairs : Forall2 le (firstn (length (St.Ds st)) (St.As st)) (St.Ds st)
}.

(** The draws taken from the source since the cursor stood at [c0]: one a
    departure recorded, and one for the departure that is pending. *)
Definition drawn (c0 : nat) (st : State) : Prop :=
  St.cur st
  = (c0 + length (St.Ds st) + (if (St.n st >? 0)%Z then 1 else 0))%nat.

(** At most 0, [-inf] included. *)
Definition nonpos (x : ext) : Prop :=
  match x with Fin q => q <= 0 | NInf => True | _ => False end.

(** When nobody is in the system, either nothing has happened yet or the
    last event recorded is a departure. *)
Definition closing (st : State) : Prop :=
  St.n st = 0%Z ->
  (St.times st = [Fin 0] /\ St.queues st = [0%Z] /\
   St.As st = [] /\ St.Ds st = []) \/
  (exists l1 l2 x, St.times st = l1 ++ [x] /\ St.Ds st = l2 ++ [x]).

(** ** Pre-generation over binary64 numbers

    The same random variates, generators and first loop of [simulate] as
    above, over IEEE binary64 numbers with their rounding (the primitive
    floats of the kernel).  Whether the loop ends is a matter of rounding:
    the clock is updated by [generation.time += ...], and a sum rounds back
    to the clock when the duration added is small enough. *)

Module F64.

Import PrimFloat.

Record draw : Type := mkDraw {
  u_val : float;     (* the value returned by np.random.rand() *)
  u_neglog : float   (* -np.log of that value *)
}.

Definition source : Type := nat -> draw.

Definition rand (src : source) (c : nat) : draw * nat := (src c, S c).

Definition exponential_rng (lam : float) (src : source) (c : nat) : float * nat :=
  let (d, c') := rand src c in
  (div (u_neglog d) lam, c').

Record Generation : Type := mkGeneration { g_lam : float; g_time : float }.

Definition Generation_init (lam : float) : Generation :=
  {| g_lam := lam; g_time := 0%float |}.

Definition generate (g : Generation) (src : source) (c : nat) : Generation * nat :=
  let (e, c') := exponential_rng (g_lam g) src c in
  ({| g_lam := g_lam g; g_time := add (g_time g) e |}, c').

Definition travel (t0 : float) (src : source) (c : nat) : float * nat :=
  let (d, c') := rand src c in
  (mul t0 (u_val d), c').

Record Scenario : Type := mkScenario {
  demand_duration : float;
  t0 : float;
  lam : float;
  mu : float
}.

(** The default arguments of [Scenario()]. *)
Definition default_scenario : Scenario :=
  {| demand_duration := 50%float; t0 := 1%float; lam := 1%float; mu := 1%float |}.

(** Lines 102-113 of [simulate]. *)
Fixpoint pregen (fuel : nat) (sc : Scenario) (src : source)
    (generation : Generation) (Ts : list float) (c : nat)
    : option (list float * nat) :=
  match fuel with
  | O => None
  | S fuel' =>
      let (generation', c1) := generate generation src c in
      let tg := g_time generation' in
      let (tt, c2) := travel (t0 sc) src c1 in
      let ta := add tg tt in
      let Ts' := Ts ++ [ta] in
      if ltb (demand_duration sc) ta then Some (Ts', c2)
      else pregen fuel' sc src generation' Ts' c2
  end.

(** The generation clock and the arrival instant of the round that starts
    with the cursor at [c]. *)
Definition next_tg (src : source) (g : Generation) (c : nat) : float :=
  add (g_time g) (div (u_neglog (src c)) (g_lam g)).

Definition next_ta (sc : Scenario) (src : source) (g : Generation) (c : nat) : float :=
  add (next_tg src g c) (mul (t0 sc) (u_val (src (S c)))).

(** Strictly positive and finite. *)
Definition positive_finite (x : float) : Prop :=
  ltb 0 x = true /\ ltb x infinity = true.

(** A draw in the open interval (0,1), with a positive finite [-log]. *)
Definition draw_open (d : draw) : Prop :=
  ltb 0 (u_val d) = true /\ ltb (u_val d) 1 = true /\
  positive_finite (u_neglog d).

(** A source that returns [2^-53] once and [1 - 2^-53] from then on, the
    least and the greatest positive values of [np.random.rand]; their
    [-log] are 36.7368005696771 and [2^-53]. *)
Definition absorbing : source :=
  fun k =>
    match k with
    | O => mkDraw 0x1p-53 0x1.25e4f7b2737fap+5
    | S _ => mkDraw 0x1.fffffffffffffp-1 0x1p-53
    end.

(** The value at which the clock of that source stays. *)
Definition stalled : float := 0x1.25e4f7b2737fap+5%float.

(** A source that always returns 0.5, and two extreme rates. *)
Definition halves : source := fun _ => mkDraw 0.5 0x1.62e42fefa39efp-1.
Definition tiny_rate : float := 0x1p-1030%float.
Definition huge_rate : float := 0x1.1ccf385ebc8ap+1023%float.

End F64.

(** * Properties *)

(** ** Comparisons on rationals and extended numbers *)

Lemma Qle_bool_false (a b : Q) : Qle_bool a b = false <-> b < a.
Proof.
  split; intros H.
  - apply Qnot_le_lt. intros Hle. apply Qle_bool_iff in Hle. congruence.
  - destruct (Qle_bool a b) eqn:E; [|reflexivity].
    apply Qle_bool_iff in E. exfalso. revert E. apply Qlt_not_le, H.
Qed.

Lemma Qltb_true (a b : Q) : Qltb a b = true <-> a < b.
Proof.
  unfold Qltb. rewrite negb_true_iff. apply Qle_bool_false.
Qed.

Lemma Qltb_false (a b : Q) : Qltb a b = false <-> b <= a.
Proof.
  unfold Qltb. rewrite negb_false_iff. apply Qle_bool_iff.
Qed.

Lemma Qeq_bool_false (a b : Q) : Qeq_bool a b = false <-> ~ a == b.
Proof.
  split; intros H.
  - intros E. apply Qeq_bool_iff in E. congruence.
  - destruct (Qeq_bool a b) eqn:E; [|reflexivity].
    apply Qeq_bool_iff in E. contradiction.
Qed.

(** Turn boolean comparisons on rationals into propositions. *)
Ltac qprop :=
  repeat match goal with
  | H : Qle_bool _ _ = true |- _ => apply Qle_bool_iff in H
  | H : Qle_bool _ _ = false |- _ => apply Qle_bool_false in H
  | H : Qltb _ _ = true |- _ => apply Qltb_true in H
  | H : Qltb _ _ = false |- _ => apply Qltb_false in H
  | H : Qeq_bool _ _ = true |- _ => apply Qeq_bool_iff in H
  | H : Qeq_bool _ _ = false |- _ => apply Qeq_bool_false in H
  | |- Qle_bool _ _ = true => apply Qle_bool_iff
  | |- Qle_bool _ _ = false => apply Qle_bool_false
  | |- Qltb _ _ = true => apply Qltb_true
  | |- Qltb _ _ = false => apply Qltb_false
  end.

(** Case analysis on every extended number in sight, then arithmetic. *)
Ltac ext_cases :=
  repeat match goal with
  | x : ext |- _ => destruct x
  end;
  unfold gtb, eqb, le in *; simpl in *;
  try discriminate; try contradiction; try reflexivity; try tauto;
  try (qprop; solve [ lra | congruence ]).

Lemma leb_gtb_excl (x d : ext) : leb x d = true -> gtb x d = true -> False.
Proof. intros H1 H2. ext_cases. Qed.

Lemma not_gtb_leb (x d : ext) :
  nonan x -> nonan d -> gtb x d = false -> leb x d = true.
Proof. intros Hx Hd H. ext_cases. Qed.

Lemma leb_lt_trans (y d x : ext) :
  leb y d = true -> gtb x d = true -> ltb y x = true.
Proof. intros H1 H2. ext_cases. Qed.

Lemma leb_trans (x y z : ext) : leb x y = true -> leb y z = true -> leb x z = true.
Proof. intros H1 H2. ext_cases. Qed.

Lemma leb_refl (x : ext) : nonan x -> leb x x = true.
Proof. intros H. ext_cases. Qed.

Lemma ltb_leb (x y : ext) : ltb x y = true -> leb x y = true.
Proof. intros H. ext_cases. Qed.

Lemma ltb_false_leb (x y : ext) :
  nonan x -> nonan y -> ltb x y = false -> leb y x = true.
Proof. intros Hx Hy H. ext_cases. Qed.

Lemma good_nonan (x : ext) : good x -> nonan x.
Proof. destruct x; simpl; tauto. Qed.

Lemma nonneg_good (x : ext) : nonneg x -> good x.
Proof. destruct x; simpl; tauto. Qed.

Lemma good_add (x y : ext) : good x -> good y -> good (add x y).
Proof. intros Hx Hy. ext_cases. Qed.

Lemma nonneg_add (x y : ext) : nonneg x -> nonneg y -> nonneg (add x y).
Proof. intros Hx Hy. ext_cases. Qed.

Lemma leb_add_pos (x d : ext) : good x -> nonneg d -> leb x (add x d) = true.
Proof. intros Hx Hd. ext_cases. Qed.

Lemma leb_PInf (x : ext) : nonan x -> leb x PInf = true.
Proof. intros H. ext_cases. Qed.

(** Adding a duration that is not negative never moves an instant below a
    bound it was not below already. *)
Lemma ltb_add_nonneg (x d b : ext) :
  nonneg d -> ltb (add x d) b = true -> ltb x b = true.
Proof. intros Hd H. ext_cases. Qed.

Lemma sided_nonan (b : bool) (x : ext) : sided b x -> nonan x.
Proof. destruct x; simpl; tauto. Qed.

Lemma sided_add (b : bool) (x y : ext) : sided b x -> sided b y -> sided b (add x y).
Proof. intros Hx Hy. destruct x, y; simpl in *; try tauto; congruence. Qed.

Lemma sided_div (d : draw) (r : Q) :
  draw_ok d -> sided (Qle_bool 0 r) (div (u_neglog d) r).
Proof.
  intros (_ & _ & H). destruct (u_neglog d) as [l| | |]; simpl; try contradiction.
  - destruct (Qeq_bool r 0) eqn:E; simpl; [|exact I].
    destruct H as (_ & Hl & _).
    apply Qltb_true in Hl. rewrite Hl. simpl.
    qprop. lra.
  - destruct (Qle_bool 0 r); reflexivity.
Qed.

(** A duration drawn with a positive rate is not negative (and not
    [nan]); it is [+inf] for a draw of 0. *)
Lemma nonneg_div (d : draw) (r : Q) :
  draw_ok d -> 0 < r -> nonneg (div (u_neglog d) r).
Proof.
  intros (_ & _ & H) Hr. destruct (u_neglog d) as [l| | |]; simpl; try contradiction.
  - destruct (Qeq_bool r 0) eqn:E; qprop; [lra|].
    simpl. destruct H as (_ & Hl & _).
    apply Qle_shift_div_l; lra.
  - assert (E : Qle_bool 0 r = true) by (qprop; lra). rewrite E. exact I.
Qed.

(** ** Arrival pre-generation *)

Section Pregen.

Variable sc : Scenario.
Variable src : source.

Lemma pregen_S (fuel : nat) (g : Generation) (Ts : list ext) (c : nat) :
  pregen (S fuel) sc src g Ts c =
  if gtb (next_ta sc src g c) (Fin (demand_duration sc))
  then Some (Ts ++ [next_ta sc src g c], S (S c))
  else pregen fuel sc src {| g_lam := g_lam g; g_time := next_tg src g c |}
              (Ts ++ [next_ta sc src g c]) (S (S c)).
Proof. reflexivity. Qed.

(** The list grows by instants that do not exceed the horizon, and last by
    one that does. *)
Lemma pregen_shape (fuel : nat) :
  forall g Ts c Ts' c',
    pregen fuel sc src g Ts c = Some (Ts', c') ->
    exists pre x,
      Ts' = Ts ++ pre ++ [x] /\
      Forall (fun y => gtb y (Fin (demand_duration sc)) = false) pre /\
      gtb x (Fin (demand_duration sc)) = true.
Proof.
  induction fuel as [|fuel IH]; intros g Ts c Ts' c' H; [discriminate|].
  rewrite pregen_S in H.
  destruct (gtb (next_ta sc src g c) (Fin (demand_duration sc))) eqn:E.
  - inversion H; subst. exists [], (next_ta sc src g c). auto.
  - apply IH in H. destruct H as (pre & x & -> & Hpre & Hx).
    exists (next_ta sc src g c :: pre), x. rewrite <- app_assoc. simpl.
    repeat split; auto.
Qed.

(** A property of the clock that every round keeps, and that makes every
    arrival instant satisfy [P], makes the whole list satisfy [P]. *)
Lemma pregen_Forall (I P : ext -> Prop) (r : Q) :
  (forall tg k, I tg -> I (add tg (div (u_neglog (src k)) r))) ->
  (forall tg k, I tg -> P (add tg (Fin (t0 sc * u_val (src k))))) ->
  forall fuel g Ts c Ts' c',
    g_lam g = r -> I (g_time g) -> Forall P Ts ->
    pregen fuel sc src g Ts c = Some (Ts', c') ->
    Forall P Ts'.
Proof.
  intros HI HP. induction fuel as [|fuel IH]; intros g Ts c Ts' c' Hr Hg HTs H;
    [discriminate|].
  rewrite pregen_S in H.
  assert (Htg : I (next_tg src g c)) by (unfold next_tg; rewrite Hr; auto).
  assert (HTs1 : Forall P (Ts ++ [next_ta sc src g c])).
  { apply Forall_app. split; [assumption|]. constructor; [|constructor].
    unfold next_ta. auto. }
  destruct (gtb (next_ta sc src g c) (Fin (demand_duration sc))).
  - inversion H; subst. assumption.
  - eapply IH; [| | |exact H]; simpl; auto.
Qed.

(** No arrival instant is [nan], whatever the scenario. *)
Lemma pregen_nonan (fuel : nat) (Ts : list ext) (c : nat) :
  draws_ok src ->
  pregen fuel sc src (Generation_init (lam sc)) [] 0%nat = Some (Ts, c) ->
  Forall nonan Ts.
Proof.
  intros Hsrc H.
  eapply (pregen_Forall (sided (Qle_bool 0 (lam sc))) nonan (lam sc));
    [| | | | |exact H]; simpl; auto.
  - intros tg k Htg. apply sided_add; [assumption|]. apply sided_div, Hsrc.
  - intros tg k Htg. eapply sided_nonan. apply sided_add; [eassumption|exact I].
Qed.

(** With a positive rate and a non-negative travel time no arrival instant
    is negative. *)
Lemma pregen_nonneg (fuel : nat) (Ts : list ext) (c : nat) :
  draws_ok src -> 0 < lam sc -> 0 <= t0 sc ->
  pregen fuel sc src (Generation_init (lam sc)) [] 0%nat = Some (Ts, c) ->
  Forall nonneg Ts.
Proof.
  intros Hsrc Hlam Ht0 H.
  eapply (pregen_Forall nonneg nonneg (lam sc)); [| | | | |exact H]; simpl; auto.
  - intros tg k Htg. apply nonneg_add; [assumption|].
    apply nonneg_div; [apply Hsrc|assumption].
  - intros tg k Htg. apply nonneg_add; [assumption|]. simpl.
    destruct (Hsrc k) as (Hu & _). apply Qmult_le_0_compat; assumption.
  - apply Qle_refl.
Qed.

End Pregen.

(** ** Sorting *)

Lemma insert_Forall (P : ext -> Prop) (x : ext) (l : list ext) :
  P x -> Forall P l -> Forall P (insert x l).
Proof.
  intros Hx. induction 1 as [|y l Hy Hl IH]; simpl.
  - constructor; auto.
  - destruct (ltb x y); repeat constructor; auto.
Qed.

Lemma sort_Forall (P : ext -> Prop) (l : list ext) :
  Forall P l -> Forall P (sort l).
Proof.
  induction 1; simpl; [constructor|]. apply insert_Forall; assumption.
Qed.

Lemma insert_snoc (y x : ext) (l : list ext) :
  ltb y x = true -> insert y (l ++ [x]) = insert y l ++ [x].
Proof.
  intros H. induction l as [|z l IH]; simpl.
  - rewrite H. reflexivity.
  - destruct (ltb y z); [reflexivity|]. rewrite IH. reflexivity.
Qed.

(** An element above all the others stays last. *)
Lemma sort_snoc (x : ext) (l : list ext) :
  Forall (fun y => ltb y x = true) l -> sort (l ++ [x]) = sort l ++ [x].
Proof.
  induction 1 as [|y l Hy Hl IH]; simpl; [reflexivity|].
  rewrite IH. apply insert_snoc, Hy.
Qed.

Lemma insert_sorted (x : ext) (l : list ext) :
  nonan x -> Forall nonan l -> ext_sorted l -> ext_sorted (insert x l).
Proof.
  intros Hx Hl Hs. induction l as [|y l IH]; simpl.
  - repeat constructor.
  - inversion Hl; subst. inversion Hs; subst.
    destruct (ltb x y) eqn:E.
    + constructor; [assumption|]. constructor. apply ltb_leb, E.
    + constructor; [apply IH; assumption|].
      assert (Hyx : le y x) by (apply ltb_false_leb; assumption).
      destruct l as [|z l]; simpl.
      * constructor. exact Hyx.
      * destruct (ltb x z); constructor; [exact Hyx|].
        match goal with H : HdRel _ _ (_ :: _) |- _ => inversion H; assumption end.
Qed.

Lemma sort_sorted (l : list ext) : Forall nonan l -> ext_sorted (sort l).
Proof.
  induction 1; simpl; [constructor|].
  apply insert_sorted; [assumption|apply sort_Forall; assumption|assumption].
Qed.

Lemma insert_perm (x : ext) (l : list ext) : Permutation (x :: l) (insert x l).
Proof.
  induction l as [|y l IH]; simpl; [reflexivity|].
  destruct (ltb x y); [reflexivity|].
  rewrite perm_swap. constructor. exact IH.
Qed.

Lemma sort_perm (l : list ext) : Permutation l (sort l).
Proof.
  induction l as [|x l IH]; simpl; [constructor|].
  rewrite <- insert_perm. constructor. exact IH.
Qed.

(** The sorted arrival list: instants within the horizon, then the one
    instant beyond it. *)
Lemma sorted_arrivals (sc : Scenario) (src : source) (fuel : nat)
    (Ts : list ext) (c : nat) :
  draws_ok src ->
  pregen fuel sc src (Generation_init (lam sc)) [] 0%nat = Some (Ts, c) ->
  exists pre x,
    Ts = pre ++ [x] /\ sort Ts = sort pre ++ [x] /\
    Forall (fun y => leb y (Fin (demand_duration sc)) = true) pre /\
    gtb x (Fin (demand_duration sc)) = true.
Proof.
  intros Hsrc H.
  pose proof (pregen_nonan sc src fuel Ts c Hsrc H) as Hnn.
  apply pregen_shape in H. destruct H as (pre & x & -> & Hpre & Hx).
  simpl in *. exists pre, x.
  assert (Hle : Forall (fun y => leb y (Fin (demand_duration sc)) = true) pre).
  { apply Forall_app in Hnn. destruct Hnn as (Hnn & _).
    rewrite Forall_forall in *. intros y Hy.
    apply not_gtb_leb; [apply Hnn, Hy|exact I|apply Hpre, Hy]. }
  repeat split; auto.
  apply sort_snoc. rewrite Forall_forall in *. intros y Hy.
  eapply leb_lt_trans; [apply Hle, Hy|exact Hx].
Qed.

(** ** The exponential transform *)

Lemma exponential_rng_eq (r : Q) (src : source) (c : nat) :
  exponential_rng r src c = (div (u_neglog (src c)) r, S c).
Proof. reflexivity. Qed.

(** C4, as the code has it.  [exponential_rng] has no guard: it takes one
    draw from the source and hands it to the logarithm as it is.  For a
    positive (finite) rate the duration is never negative and never [nan],
    and it is [+inf] when the draw is 0.  (Nothing more is said of a draw
    in the open interval (0,1): in doubles the quotient may round to 0 or
    overflow to [+inf].) *)
Theorem exponential_rng_unguarded (r : Q) (src : source) (c : nat) :
  draw_ok (src c) -> 0 < r ->
  snd (exponential_rng r src c) = S c /\
  nonneg (fst (exponential_rng r src c)) /\
  (u_val (src c) == 0 -> fst (exponential_rng r src c) = PInf).
Proof.
  intros Hd Hr. rewrite exponential_rng_eq. simpl.
  pose proof (nonneg_div (src c) r Hd Hr) as Hnn.
  destruct Hd as (Hu0 & Hu1 & Hl).
  split; [reflexivity|]. split; [exact Hnn|].
  intros Hu. destruct (u_neglog (src c)) as [l| | |]; try contradiction.
  - lra.
  - simpl. assert (E : Qle_bool 0 r = true) by (qprop; lra).
    rewrite E. reflexivity.
Qed.

Lemma exponential_rng_unguarded_witness :
  let src := source_of [mkDraw (1 # 2) (Fin (7 # 10))] (mkDraw 0 PInf) in
  draw_ok (src 1%nat) /\ 0 < 2 /\
  snd (exponential_rng 2 src 1) = 2%nat /\
  nonneg (fst (exponential_rng 2 src 1)) /\
  (u_val (src 1%nat) == 0 -> fst (exponential_rng 2 src 1) = PInf).
Proof.
  intros src.
  assert (H1 : draw_ok (src 1%nat)).
  { unfold src, draw_ok; simpl. repeat split; lra. }
  assert (H2 : 0 < 2) by reflexivity.
  split; [exact H1|]. split; [exact H2|].
  exact (exponential_rng_unguarded 2 src 1 H1 H2).
Defined.

(** C4 as stated fails: a draw of exactly 0 is consumed (the cursor moves
    on by one, nothing is drawn again) and the duration returned is
    [+inf]. *)
Lemma exponential_rng_zero_draw :
  let src := source_of [] (mkDraw 0 PInf) in
  draw_ok (src 0%nat) /\ u_val (src 0%nat) == 0 /\
  exponential_rng 1 src 0 = (PInf, 1%nat).
Proof.
  simpl. unfold draw_ok; simpl. repeat split; try lra; reflexivity.
Qed.

(** ** The condition chain *)

Lemma branch_A (sc : Scenario) (st : State) :
  branch sc st = Some PhaseA <-> condA sc st = true.
Proof.
  unfold branch. destruct (condA sc st); [tauto|].
  destruct (condB sc st); [split; discriminate|].
  destruct (condC sc st); split; discriminate.
Qed.

Lemma branch_B (sc : Scenario) (st : State) :
  branch sc st = Some PhaseB <-> condA sc st = false /\ condB sc st = true.
Proof.
  unfold branch. destruct (condA sc st); [split; [discriminate|intros []; discriminate]|].
  destruct (condB sc st); [tauto|].
  destruct (condC sc st); split; try discriminate; intros []; discriminate.
Qed.

Lemma branch_C (sc : Scenario) (st : State) :
  branch sc st = Some PhaseC <->
  condA sc st = false /\ condB sc st = false /\ condC sc st = true.
Proof.
  unfold branch. destruct (condA sc st), (condB sc st), (condC sc st);
    split; try discriminate; try tauto; intros (? & ? & ?); discriminate.
Qed.

(** The drain branch is only ever taken with the next arrival beyond the
    horizon (or no number at all). *)
Lemma branch_C_EL0 (sc : Scenario) (st : State) :
  branch sc st = Some PhaseC ->
  leb (St.EL0 st) (Fin (demand_duration sc)) = false.
Proof.
  rewrite branch_C. unfold condA, condB, condC.
  destruct st as [t n NA ND EL0 EL1 Ts c times queues As Ds]; simpl.
  generalize (demand_duration sc). intros dd (HA & HB & HC).
  destruct EL0, EL1; unfold gtb in *; simpl in *;
    try reflexivity; try discriminate;
    rewrite ?andb_false_iff, ?orb_true_iff, ?andb_true_r, ?andb_false_r,
      ?orb_false_r in *;
    repeat match goal with H : _ \/ _ |- _ => destruct H end;
    try discriminate; qprop; try lra.
Qed.

(** With numbers in both slots one of the three conditions holds. *)
Lemma branch_total (sc : Scenario) (st : State) :
  nonan (St.EL0 st) -> nonan (St.EL1 st) -> branch sc st <> None.
Proof.
  unfold branch, condA, condB, condC.
  destruct st as [t n NA ND EL0 EL1 Ts c times queues As Ds]; simpl.
  generalize (demand_duration sc). intros dd H0 H1.
  destruct EL0, EL1; unfold gtb; simpl in *; try contradiction; try discriminate;
    repeat match goal with
    | |- context [Qle_bool ?a ?b] => destruct (Qle_bool a b) eqn:?
    | |- context [Qltb ?a ?b] => destruct (Qltb a b) eqn:?
    end; simpl; try discriminate; qprop; lra.
Qed.

(** C5.  When the two slots hold equal numbers and the arrival is within the
    horizon the chain selects arrival processing; an instant is left in the
    iterator (the one beyond the horizon, at the least), and the pass
    raises the queue length by one at the instant of the tie and records an
    arrival, not a departure. *)
Theorem tie_break_arrival_first (sc : Scenario) (src : source) (st : State) :
  eqb (St.EL0 st) (St.EL1 st) = true ->
  leb (St.EL0 st) (Fin (demand_duration sc)) = true ->
  branch sc st = Some PhaseA /\
  step sc src st = arrival sc src st /\
  (sentinel sc st -> exists Tt Ts', St.Ts st = Tt :: Ts') /\
  forall Tt Ts', St.Ts st = Tt :: Ts' ->
    exists st', step sc src st = Continue st' /\
      St.t st' = St.EL0 st /\
      St.n st' = (St.n st + 1)%Z /\
      St.queues st' = St.queues st ++ [(St.n st + 1)%Z] /\
      St.times st' = St.times st ++ [St.EL0 st] /\
      St.As st' = St.As st ++ [St.EL0 st] /\
      St.Ds st' = St.Ds st.
Proof.
  intros Heq Hdd.
  assert (HA : branch sc st = Some PhaseA).
  { apply branch_A. unfold condA. unfold eqb in Heq.
    apply andb_true_iff in Heq. destruct Heq as (Hle & _).
    rewrite Hle, Hdd. reflexivity. }
  assert (Hstep : step sc src st = arrival sc src st).
  { unfold step. rewrite HA. reflexivity. }
  split; [exact HA|]. split; [exact Hstep|]. split.
  { intros (init & x & Hl & Hx).
    destruct (St.Ts st) as [|Tt Ts']; [|eauto].
    exfalso. destruct init as [|y init]; simpl in Hl.
    - inversion Hl; subst. eapply leb_gtb_excl; eassumption.
    - inversion Hl. destruct init; discriminate. }
  intros Tt Ts' HTs. rewrite Hstep. unfold arrival. rewrite HTs.
  destruct (St.n st + 1 =? 1)%Z.
  - rewrite (surjective_pairing (depart (mu sc) src (St.cur st))).
    eexists. split; [reflexivity|]. simpl. repeat split.
  - eexists. split; [reflexivity|]. simpl. repeat split.
Qed.

(** ** One pass through the loop body *)

Section Step.

Variable sc : Scenario.
Variable src : source.

Lemma step_Continue (st st' : State) :
  step sc src st = Continue st' ->
  (branch sc st = Some PhaseA /\ arrival sc src st = Continue st') \/
  (branch sc st = Some PhaseB /\ departure sc src st = Continue st') \/
  (branch sc st = Some PhaseC /\ drain sc src st = Continue st') \/
  (branch sc st = None /\ st' = st).
Proof.
  unfold step. destruct (branch sc st) as [[| |]|]; intros H; auto.
  inversion H; auto.
Qed.

Lemma step_Break (st st' : State) :
  step sc src st = Break st' ->
  branch sc st = Some PhaseC /\ st' = st /\ (St.n st <= 0)%Z.
Proof.
  unfold step. destruct (branch sc st) as [[| |]|] eqn:E; intros H.
  - unfold arrival in H. destruct (St.Ts st); [discriminate|].
    destruct (St.n st + 1 =? 1)%Z; discriminate.
  - unfold departure in H. destruct (St.n st - 1 >? 0)%Z; discriminate.
  - unfold drain in H. destruct (St.n st >? 0)%Z eqn:En; [discriminate|].
    inversion H; subst. repeat split. lia.
  - discriminate.
Qed.

Lemma step_Raise (st : State) (e : exn) :
  step sc src st = Raise e -> branch sc st = Some PhaseA /\ St.Ts st = [].
Proof.
  unfold step. destruct (branch sc st) as [[| |]|] eqn:E; intros H.
  - unfold arrival in H. destruct (St.Ts st); [auto|].
    destruct (St.n st + 1 =? 1)%Z; discriminate.
  - unfold departure in H. destruct (St.n st - 1 >? 0)%Z; discriminate.
  - unfold drain in H. destruct (St.n st >? 0)%Z; discriminate.
  - discriminate.
Qed.

Lemma arrival_Continue (st st' : State) :
  arrival sc src st = Continue st' ->
  exists Tt Ts',
    St.Ts st = Tt :: Ts' /\
    st' = St.mk (St.EL0 st) (St.n st + 1) (St.NA st + 1) (St.ND st) Tt
            (if (St.n st + 1 =? 1)%Z then add (St.EL0 st) (service sc src st)
             else St.EL1 st)
            Ts'
            (if (St.n st + 1 =? 1)%Z then S (St.cur st) else St.cur st)
            (St.times st ++ [St.EL0 st]) (St.queues st ++ [(St.n st + 1)%Z])
            (St.As st ++ [St.EL0 st]) (St.Ds st).
Proof.
  unfold arrival. destruct (St.Ts st) as [|Tt Ts']; [discriminate|].
  intros H. exists Tt, Ts'. split; [reflexivity|].
  destruct (St.n st + 1 =? 1)%Z; simpl in H; inversion H; reflexivity.
Qed.

Lemma departure_Continue (st st' : State) :
  departure sc src st = Continue st' ->
  st' = St.mk (St.EL1 st) (St.n st - 1) (St.NA st) (St.ND st + 1) (St.EL0 st)
          (if (St.n st - 1 >? 0)%Z then add (St.EL1 st) (service sc src st) else PInf)
          (St.Ts st)
          (if (St.n st - 1 >? 0)%Z then S (St.cur st) else St.cur st)
          (St.times st ++ [St.EL1 st]) (St.queues st ++ [(St.n st - 1)%Z])
          (St.As st) (St.Ds st ++ [St.EL1 st]).
Proof.
  unfold departure.
  destruct (St.n st - 1 >? 0)%Z; simpl; intros H; inversion H; reflexivity.
Qed.

Lemma drain_Continue (st st' : State) :
  drain sc src st = Continue st' ->
  (St.n st > 0)%Z /\
  st' = drain_loop (Z.to_nat (St.n st - 1)) sc src (drain_first st).
Proof.
  unfold drain. destruct (St.n st >? 0)%Z eqn:E; [|discriminate].
  intros H. inversion H. split; [lia|reflexivity].
Qed.

Lemma drain_round_eq (st : State) :
  drain_round sc src st =
  St.mk (add (St.t st) (service sc src st)) (St.n st - 1) (St.NA st) (St.ND st + 1)
        (St.EL0 st) (add (St.t st) (service sc src st)) (St.Ts st) (S (St.cur st))
        (St.times st ++ [add (St.t st) (service sc src st)])
        (St.queues st ++ [(St.n st - 1)%Z]) (St.As st)
        (St.Ds st ++ [add (St.t st) (service sc src st)]).
Proof. reflexivity. Qed.

(** What every round of the inner loop keeps, the inner loop keeps. *)
Lemma drain_loop_inv (P : State -> Prop) :
  (forall st, P st -> (St.n st > 0)%Z -> P (drain_round sc src st)) ->
  forall k st, P st -> P (drain_loop k sc src st).
Proof.
  intros HP. induction k as [|k IH]; intros st H; simpl; [assumption|].
  destruct (St.n st >? 0)%Z eqn:E; [|assumption].
  apply IH, HP; [assumption|lia].
Qed.

(** The inner loop leaves with [n] at 0. *)
Lemma drain_loop_n (k : nat) :
  forall st, (0 <= St.n st <= Z.of_nat k)%Z ->
    St.n (drain_loop k sc src st) = 0%Z.
Proof.
  induction k as [|k IH]; intros st H; simpl; [lia|].
  destruct (St.n st >? 0)%Z eqn:E; [|lia].
  apply IH. rewrite drain_round_eq. simpl. lia.
Qed.

(** What every pass keeps holds when the loop is left, and it is left
    through the [break]. *)
Lemma main_loop_inv (P : State -> Prop) :
  (forall st st', P st -> step sc src st = Continue st' -> P st') ->
  forall fuel st st',
    P st -> main_loop fuel sc src st = Some (inr st') ->
    P st' /\ step sc src st' = Break st'.
Proof.
  intros HP. induction fuel as [|fuel IH]; intros st st' H Hm; [discriminate|].
  simpl in Hm. destruct (step sc src st) as [st1|st1|e] eqn:E.
  - eapply IH; [|exact Hm]. eapply HP; eassumption.
  - inversion Hm; subst. apply step_Break in E as E'.
    destruct E' as (_ & -> & _). auto.
  - discriminate.
Qed.

Lemma loop_head_inv (P : State -> Prop) (st0 : State) :
  (forall st st', P st -> step sc src st = Continue st' -> P st') ->
  P st0 -> forall st, loop_head sc src st0 st -> P st.
Proof.
  intros HP H0 st H. induction H; eauto.
Qed.

End Step.

(** ** The event-list invariant *)

Lemma condB_EL1_finite (sc : Scenario) (st : State) :
  condB sc st = true -> St.EL1 st <> PInf.
Proof.
  unfold condB. intros H E. rewrite E in H. simpl in H.
  destruct (St.EL0 st); discriminate.
Qed.

Lemma idle_inv_step (sc : Scenario) (src : source) (st st' : State) (ph : phase) :
  idle_inv st ->
  branch sc st = Some ph -> ph <> PhaseC ->
  step sc src st = Continue st' ->
  idle_inv st'.
Proof.
  intros (Hn & Hidle) Hb Hph Hstep.
  apply step_Continue in Hstep.
  destruct Hstep as [(_ & H)|[(HB & H)|[(HC & _)|(HN & _)]]].
  - apply arrival_Continue in H. destruct H as (Tt & Ts' & _ & ->).
    split; simpl; lia.
  - apply departure_Continue in H. subst st'.
    apply branch_B in HB. destruct HB as (_ & HB).
    apply condB_EL1_finite in HB.
    assert (St.n st <> 0)%Z by tauto.
    split; simpl; [lia|]. intros E.
    destruct (St.n st - 1 >? 0)%Z eqn:G; [lia|reflexivity].
  - congruence.
  - congruence.
Qed.

(** X1.  The event-list invariant up to the drain.  At every loop head
    reached by arrival and departure processing alone (the drain after the horizon
    has not run) the queue length is non-negative and the departure slot is
    [+inf] whenever the queue length is 0; and a departure processed before
    the horizon that brings the queue length to 0 sets the slot to
    [+inf]. *)
Theorem idle_server_has_no_departure (sc : Scenario) (src : source)
    (T0 : ext) (Ts : list ext) (c : nat) (st : State) :
  loop_head_AB sc src (init_state T0 Ts c) st ->
  ((0 <= St.n st)%Z /\ (St.n st = 0%Z -> St.EL1 st = PInf)) /\
  (forall st', branch sc st = Some PhaseB ->
     step sc src st = Continue st' -> St.n st' = 0%Z -> St.EL1 st' = PInf).
Proof.
  intros H.
  assert (Hinv : idle_inv st).
  { induction H as [|st st' ph _ IH Hb Hph Hstep].
    - split; simpl; [lia|reflexivity].
    - eapply idle_inv_step; eassumption. }
  split; [exact Hinv|].
  intros st' Hb Hstep Hn.
  assert (Hinv' : idle_inv st').
  { eapply idle_inv_step; [exact Hinv|exact Hb|discriminate|exact Hstep]. }
  apply Hinv', Hn.
Qed.

(** ** Drain and balance *)

Section Balance.

Variable sc : Scenario.
Variable src : source.
Hypothesis Hsrc : draws_ok src.
Hypothesis Hmu : 0 < mu sc.

Lemma service_nonneg (st : State) : nonneg (service sc src st).
Proof. unfold service. apply nonneg_div; [apply Hsrc|exact Hmu]. Qed.

(** The drain writes the two slots of the arrival stream nowhere, keeps
    the clock in the departure slot, and only moves that slot upwards. *)
Lemma drain_loop_slots (k : nat) (st0 : State) :
  St.t st0 = St.EL1 st0 ->
  let st' := drain_loop k sc src st0 in
  St.t st' = St.EL1 st' /\ St.EL0 st' = St.EL0 st0 /\ St.Ts st' = St.Ts st0 /\
  St.As st' = St.As st0 /\
  (forall x, ltb (St.EL1 st') x = true -> ltb (St.EL1 st0) x = true).
Proof.
  intros H0. simpl.
  apply (drain_loop_inv sc src (fun st' =>
    St.t st' = St.EL1 st' /\ St.EL0 st' = St.EL0 st0 /\ St.Ts st' = St.Ts st0 /\
    St.As st' = St.As st0 /\
    (forall x, ltb (St.EL1 st') x = true -> ltb (St.EL1 st0) x = true))).
  - intros st (Ht & H1 & H2 & H3 & H4) _. rewrite drain_round_eq. simpl.
    repeat split; auto.
    intros x Hx. apply H4. rewrite Ht in Hx.
    eapply ltb_add_nonneg; [apply service_nonneg|exact Hx].
  - repeat split; auto.
Qed.

Lemma drain_loop_balance (k : nat) (st0 : State) :
  let P := fun st =>
    (0 <= St.n st)%Z /\ (exists q, St.queues st = q ++ [St.n st]) /\
    Z.of_nat (length (St.As st)) = (Z.of_nat (length (St.Ds st)) + St.n st)%Z in
  P st0 -> P (drain_loop k sc src st0).
Proof.
  intros P. apply drain_loop_inv.
  intros st (Hn & (q & Hq) & Hc) Hpos. rewrite drain_round_eq. unfold P. simpl.
  split; [lia|]. split; [eexists; reflexivity|].
  rewrite length_app. simpl. lia.
Qed.

Lemma balanced_step (st st' : State) :
  balanced sc st -> step sc src st = Continue st' -> balanced sc st'.
Proof.
  intros (Hn & HB0 & (q & Hq) & Hc) Hstep.
  apply step_Continue in Hstep.
  destruct Hstep as [(_ & H)|[(HB & H)|[(HC & H)|(_ & ->)]]].
  - apply arrival_Continue in H. destruct H as (Tt & Ts' & _ & ->).
    unfold balanced; simpl. split; [lia|]. split; [lia|].
    split; [eexists; reflexivity|]. rewrite length_app. simpl. lia.
  - apply departure_Continue in H. subst st'.
    apply branch_B in HB. destruct HB as (_ & HB).
    assert (St.n st <> 0)%Z by (intros E; rewrite (HB0 E) in HB; discriminate).
    unfold balanced; simpl. split; [lia|]. split.
    + intros E. destruct (St.n st - 1 >? 0)%Z eqn:G; [lia|].
      unfold condB; simpl. destruct (St.EL0 st); reflexivity.
    + split; [eexists; reflexivity|]. rewrite length_app. simpl. lia.
  - apply drain_Continue in H. destruct H as (Hpos & ->).
    apply branch_C in HC. destruct HC as (_ & HB & _).
    pose proof (drain_loop_slots (Z.to_nat (St.n st - 1)) (drain_first st)
                  eq_refl) as (_ & H0 & _ & _ & Hmono).
    pose proof (drain_loop_balance (Z.to_nat (St.n st - 1)) (drain_first st))
      as Hbal.
    simpl in Hbal. rewrite length_app in Hbal. simpl in Hbal.
    destruct Hbal as (Hn' & Hq' & Hc').
    { split; [lia|]. split; [eexists; reflexivity|]. lia. }
    unfold balanced. repeat split; auto.
    intros _. unfold condB in *. rewrite H0. simpl in *.
    destruct (ltb (St.EL1 (drain_loop _ _ _ _)) (St.EL0 st)) eqn:E1; [|reflexivity].
    destruct (ltb (St.EL1 (drain_loop _ _ _ _)) (Fin (demand_duration sc))) eqn:E2;
      [|reflexivity].
    apply Hmono in E1, E2. rewrite E1, E2 in HB. discriminate.
  - unfold balanced. eauto.
Qed.

Lemma balanced_init (T0 : ext) (Ts : list ext) (c : nat) :
  balanced sc (init_state T0 Ts c).
Proof.
  unfold balanced, condB; simpl. split; [lia|]. split.
  - intros _. destruct T0; reflexivity.
  - split; [exists []; reflexivity|reflexivity].
Qed.

End Balance.

Lemma entry_init (fuel : nat) (src : source) (sc : Scenario) (st0 : State) :
  entry fuel src sc = Some (inr st0) ->
  exists Ts c T0 Ts',
    pregen fuel sc src (Generation_init (lam sc)) [] 0%nat = Some (Ts, c) /\
    sort Ts = T0 :: Ts' /\ st0 = init_state T0 Ts' c.
Proof.
  unfold entry.
  destruct (pregen fuel sc src (Generation_init (lam sc)) [] 0%nat)
    as [[Ts c]|]; [|discriminate].
  destruct (sort Ts) as [|T0 Ts'] eqn:E; [discriminate|].
  intros H. inversion H. exists Ts, c, T0, Ts'. auto.
Qed.

Lemma simulate_Some (fuel : nat) (src : source) (sc : Scenario) (r : Result) :
  simulate fuel src sc = Some (inr r) ->
  exists st0 st,
    entry fuel src sc = Some (inr st0) /\
    main_loop fuel sc src st0 = Some (inr st) /\ r = result_of st.
Proof.
  unfold simulate.
  destruct (entry fuel src sc) as [[e|st0]|]; try discriminate.
  destruct (main_loop fuel sc src st0) as [[e|st]|] eqn:E; try discriminate.
  intros H. inversion H; subst. exists st0, st. repeat split. exact E.
Qed.

(** C6.  A run that ends has recorded 0 as its last queue length and as
    many departures as arrivals. *)
Theorem full_drain (fuel : nat) (src : source) (sc : Scenario) (r : Result) :
  draws_ok src -> 0 < mu sc ->
  simulate fuel src sc = Some (inr r) ->
  (exists q, r_queues r = q ++ [0%Z]) /\
  length (r_As r) = length (r_Ds r).
Proof.
  intros Hsrc Hmu H.
  apply simulate_Some in H. destruct H as (st0 & st & He & Hm & ->).
  apply entry_init in He. destruct He as (Ts & c & T0 & Ts' & _ & _ & ->).
  apply (main_loop_inv sc src (balanced sc)) in Hm.
  - destruct Hm as ((Hn & _ & (q & Hq) & Hc) & Hb).
    apply step_Break in Hb. destruct Hb as (_ & _ & Hle).
    assert (E : St.n st = 0%Z) by lia.
    simpl. rewrite E in *. split; [eauto|]. lia.
  - intros s s'. apply balanced_step; assumption.
  - apply balanced_init.
Qed.

(** ** The arrival iterator *)

Section Iterator.

Variable sc : Scenario.
Variable src : source.

Lemma drain_loop_frame (k : nat) (st0 : State) :
  let st' := drain_loop k sc src st0 in
  St.EL0 st' = St.EL0 st0 /\ St.Ts st' = St.Ts st0.
Proof.
  simpl. apply (drain_loop_inv sc src (fun st' =>
    St.EL0 st' = St.EL0 st0 /\ St.Ts st' = St.Ts st0)); [|auto].
  intros st (H1 & H2) _. rewrite drain_round_eq. simpl. auto.
Qed.

Lemma sentinel_step (st st' : State) :
  sentinel sc st -> step sc src st = Continue st' -> sentinel sc st'.
Proof.
  intros (init & x & Hl & Hx) Hstep.
  apply step_Continue in Hstep.
  destruct Hstep as [(HA & H)|[(_ & H)|[(_ & H)|(_ & ->)]]].
  - apply arrival_Continue in H. destruct H as (Tt & Ts' & HTs & ->).
    rewrite HTs in Hl. unfold sentinel; simpl.
    destruct init as [|y init]; simpl in Hl.
    + inversion Hl.
    + inversion Hl. exists init, x. auto.
  - apply departure_Continue in H. subst st'.
    exists init, x. simpl. auto.
  - apply drain_Continue in H. destruct H as (_ & ->).
    destruct (drain_loop_frame (Z.to_nat (St.n st - 1)) (drain_first st))
      as (H0 & H1).
    exists init, x. rewrite H0, H1. auto.
  - exists init, x. auto.
Qed.

(** With the sentinel in place no pull finds the iterator exhausted. *)
Lemma sentinel_no_raise (st : State) (e : exn) :
  sentinel sc st -> step sc src st <> Raise e.
Proof.
  intros (init & x & Hl & Hx) H.
  apply step_Raise in H. destruct H as (HA & HTs).
  rewrite HTs in Hl.
  destruct init as [|y init]; simpl in Hl.
  - inversion Hl; subst. apply branch_A in HA. unfold condA in HA.
    apply andb_true_iff in HA. destruct HA as (_ & HA).
    eapply leb_gtb_excl; eassumption.
  - inversion Hl. destruct init; discriminate.
Qed.

Lemma main_loop_no_raise (fuel : nat) :
  forall st e, sentinel sc st -> main_loop fuel sc src st <> Some (inl e).
Proof.
  induction fuel as [|fuel IH]; intros st e Hs; simpl; [discriminate|].
  destruct (step sc src st) as [st1|st1|e1] eqn:E.
  - apply IH. eapply sentinel_step; eassumption.
  - discriminate.
  - exfalso. eapply sentinel_no_raise; eassumption.
Qed.

(** The entry to the main loop: the first pull succeeds and leaves the
    sentinel in place. *)
Lemma entry_sentinel (fuel : nat) :
  draws_ok src ->
  match entry fuel src sc with
  | Some (inl _) => False
  | Some (inr st0) => sentinel sc st0
  | None => True
  end.
Proof.
  intros Hsrc. unfold entry.
  destruct (pregen fuel sc src (Generation_init (lam sc)) [] 0%nat)
    as [[Ts c]|] eqn:E; [|exact I].
  apply sorted_arrivals in E; [|assumption].
  destruct E as (pre & x & _ & Hs & _ & Hx). rewrite Hs.
  destruct (sort pre ++ [x]) as [|T0 Ts'] eqn:E'.
  - destruct (sort pre); discriminate.
  - exists (sort pre), x. simpl. auto.
Qed.

End Iterator.

(** C10.  With draws as numpy yields them, no pull on the arrival iterator
    finds it exhausted, whatever the scenario: the first pull succeeds
    (pre-generation has appended at least one instant), at every loop head
    the instants still to come, [EL[0]] first, end with the instant beyond
    the horizon, which sorting has put last, so that the pass made there
    does not raise; and [simulate] does not end in [StopIteration]. *)
Theorem no_stop_iteration (fuel : nat) (src : source) (sc : Scenario) (e : exn) :
  draws_ok src ->
  entry fuel src sc <> Some (inl e) /\
  (forall st0 st,
     entry fuel src sc = Some (inr st0) -> loop_head sc src st0 st ->
     sentinel sc st /\ step sc src st <> Raise e) /\
  simulate fuel src sc <> Some (inl e).
Proof.
  intros Hsrc.
  pose proof (entry_sentinel sc src fuel Hsrc) as He.
  split; [|split].
  - intros E. rewrite E in He. exact He.
  - intros st0 st E Hh. rewrite E in He.
    assert (Hs : sentinel sc st).
    { revert st Hh. apply loop_head_inv; [|exact He].
      intros s s'. apply sentinel_step. }
    split; [exact Hs|]. apply sentinel_no_raise, Hs.
  - unfold simulate.
    destruct (entry fuel src sc) as [[e0|st0]|]; [contradiction| |discriminate].
    pose proof (main_loop_no_raise sc src fuel st0) as Hm.
    destruct (main_loop fuel sc src st0) as [[e1|st]|]; try discriminate.
    exfalso. apply (Hm e1 He). reflexivity.
Qed.

(** ** The arrival list *)

(** C1, as the code has it.  Pre-generation appends every instant before it
    tests it, so the instant that exceeds the horizon ends the list; it is
    the only one that exceeds it.  Sorting leaves it last: the sorted list
    the main loop consumes is a run of instants [<= demand_duration]
    followed by that one instant [> demand_duration]. *)
Theorem overshoot_is_kept_last (sc : Scenario) (src : source) (fuel : nat)
    (Ts : list ext) (c : nat) :
  draws_ok src ->
  pregen fuel sc src (Generation_init (lam sc)) [] 0%nat = Some (Ts, c) ->
  exists pre x,
    Ts = pre ++ [x] /\ sort Ts = sort pre ++ [x] /\
    Forall (fun y => leb y (Fin (demand_duration sc)) = true) (sort pre) /\
    gtb x (Fin (demand_duration sc)) = true.
Proof.
  intros Hsrc H.
  destruct (sorted_arrivals sc src fuel Ts c Hsrc H) as (pre & x & H1 & H2 & H3 & H4).
  exists pre, x. repeat split; auto.
  apply sort_Forall, H3.
Qed.

(** ** The empty arrival stream *)

Lemma first_instant_eq (sc : Scenario) (src : source) :
  next_ta sc src (Generation_init (lam sc)) 0 = first_instant sc src.
Proof. reflexivity. Qed.

Lemma simulate_first_overshoot (sc : Scenario) (src : source) (fuel : nat) :
  gtb (first_instant sc src) (Fin (demand_duration sc)) = true ->
  pregen (S fuel) sc src (Generation_init (lam sc)) [] 0%nat
    = Some ([first_instant sc src], 2%nat) /\
  simulate (S fuel) src sc = Some (inr empty_run).
Proof.
  intros H.
  assert (Hp : pregen (S fuel) sc src (Generation_init (lam sc)) [] 0%nat
               = Some ([first_instant sc src], 2%nat)).
  { rewrite pregen_S, first_instant_eq, H. reflexivity. }
  split; [exact Hp|].
  unfold simulate, entry. rewrite Hp. cbn [sort insert].
  cbn [main_loop]. unfold step.
  assert (Hb : branch sc (init_state (first_instant sc src) [] 2) = Some PhaseC).
  { apply branch_C. unfold condA, condB, condC. cbn [St.EL0 St.EL1 init_state].
    rewrite H. simpl orb.
    assert (Hle : leb (first_instant sc src) (Fin (demand_duration sc)) = false).
    { destruct (leb _ _) eqn:E; [|reflexivity].
      exfalso. eapply leb_gtb_excl; eassumption. }
    rewrite Hle, andb_false_r.
    repeat split. destruct (first_instant sc src); reflexivity. }
  rewrite Hb. reflexivity.
Qed.

(** C8.  When the first arrival instant generated exceeds the horizon, one
    round of pre-generation and one pass of the main loop end the run: the
    only instant in the list is that one, and the result is [times = [0]],
    [queue_lengths = [0]], no arrival and no departure. *)
Theorem zero_horizon (sc : Scenario) (src : source) (fuel : nat) :
  gtb (first_instant sc src) (Fin (demand_duration sc)) = true ->
  pregen (S fuel) sc src (Generation_init (lam sc)) [] 0%nat
    = Some ([first_instant sc src], 2%nat) /\
  simulate (S fuel) src sc
    = Some (inr (mkResult [Fin 0] [0%Z] [] [])).
Proof.
  intros H. apply simulate_first_overshoot, H.
Qed.

(** ** Parameters are not checked *)

Lemma first_instant_nonneg (sc : Scenario) (src : source) :
  draws_ok src -> 0 < lam sc -> 0 <= t0 sc ->
  nonneg (first_instant sc src).
Proof.
  intros Hsrc Hlam Ht0. unfold first_instant.
  pose proof (nonneg_div (src 0%nat) (lam sc) (Hsrc 0%nat) Hlam) as Hp.
  destruct (Hsrc 1%nat) as (Hu & _).
  assert (0 <= t0 sc * u_val (src 1%nat)) by (apply Qmult_le_0_compat; assumption).
  destruct (div (u_neglog (src 0%nat)) (lam sc)); simpl in *; try contradiction; auto.
  lra.
Qed.

(** C3, as the code has it.  Nothing checks the parameters.
    [Scenario.__init__] succeeds on any four numbers and stores them as they
    are, and [simulate] starts generating arrivals at once.  With a
    negative horizon, for one, (and a positive arrival rate, a non-negative
    travel time) the run is not refused: the first instant generated is not
    negative, so it exceeds the horizon, and the run ends normally with the
    empty trajectory. *)
Theorem parameters_unchecked :
  (forall dd t0 lam mu,
     Scenario_init dd t0 lam mu = inr (mkScenario dd t0 lam mu)) /\
  (forall sc src fuel,
     draws_ok src -> 0 < lam sc -> 0 <= t0 sc -> demand_duration sc < 0 ->
     simulate (S fuel) src sc = Some (inr empty_run)).
Proof.
  split; [reflexivity|].
  intros sc src fuel Hsrc Hlam Ht0 Hdd.
  apply simulate_first_overshoot.
  pose proof (first_instant_nonneg sc src Hsrc Hlam Ht0) as Hp.
  destruct (first_instant sc src); unfold gtb; simpl in *; try contradiction;
    [qprop; lra|reflexivity].
Qed.

(** ** The trajectory *)

Lemma sorted_snoc (l : list ext) (y : ext) :
  ext_sorted l -> Forall (fun x => le x y) l -> ext_sorted (l ++ [y]).
Proof.
  unfold ext_sorted. induction l as [|a l IH]; intros Hs Hf; simpl.
  - repeat constructor.
  - inversion Hs; subst. inversion Hf; subst.
    constructor; [apply IH; assumption|].
    destruct l as [|b l]; simpl.
    + constructor. assumption.
    + constructor.
      match goal with H : HdRel _ _ (_ :: _) |- _ => inversion H; assumption end.
Qed.

(** Recording an instant that is not before the clock. *)
Lemma times_push (l : list ext) (t t' : ext) :
  ext_sorted l -> Forall (fun x => le x t) l -> le t t' -> good t' ->
  ext_sorted (l ++ [t']) /\ Forall (fun x => le x t') (l ++ [t']).
Proof.
  intros Hs Hf Hle Hg.
  assert (Hf' : Forall (fun x => le x t') l).
  { eapply Forall_impl; [|exact Hf]. intros x Hx. exact (leb_trans _ _ _ Hx Hle). }
  split; [apply sorted_snoc; assumption|].
  apply Forall_app. split; [assumption|].
  constructor; [|constructor]. apply leb_refl, good_nonan, Hg.
Qed.

Section Trajectory.

Variable sc : Scenario.
Variable src : source.
Hypothesis Hsrc : draws_ok src.
Hypothesis Hmu : 0 < mu sc.

Lemma service_good (st : State) : good (service sc src st).
Proof. apply nonneg_good, service_nonneg; assumption. Qed.

Lemma orderly_push (st st' : State) (t' : ext) (n' : Z) :
  orderly sc st -> le (St.t st) t' -> good t' -> (0 <= n')%Z ->
  St.t st' = t' ->
  St.times st' = St.times st ++ [t'] ->
  St.queues st' = St.queues st ++ [n'] ->
  length (St.times st') = length (St.queues st') /\
  (exists l, St.times st' = Fin 0 :: l) /\
  (exists l, St.queues st' = 0%Z :: l) /\
  Forall (fun q => (0 <= q)%Z) (St.queues st') /\
  ext_sorted (St.times st') /\
  Forall (fun x => le x (St.t st')) (St.times st').
Proof.
  intros Ho Hle Hg Hn Ht Hts Hqs.
  destruct Ho as [Hlen [lt Ht0] [lq Hq0] Hq Hs Hu _ _ _ _ _ _].
  destruct (times_push _ _ _ Hs Hu Hle Hg) as (Hs' & Hu').
  rewrite Ht, Hts, Hqs. repeat split; auto.
  - rewrite !length_app, Hlen. reflexivity.
  - rewrite Ht0. eexists. reflexivity.
  - rewrite Hq0. eexists. reflexivity.
  - apply Forall_app. split; [assumption|]. constructor; [assumption|constructor].
Qed.

Lemma orderly_drain_round (st : State) :
  orderly sc st /\ leb (St.EL0 st) (Fin (demand_duration sc)) = false ->
  (St.n st > 0)%Z ->
  orderly sc (drain_round sc src st) /\
  leb (St.EL0 (drain_round sc src st)) (Fin (demand_duration sc)) = false.
Proof.
  intros (Ho & Hdd) Hn.
  assert (Hg : good (add (St.t st) (service sc src st))).
  { apply good_add; [apply Ho|apply service_good]. }
  assert (Hle : le (St.t st) (add (St.t st) (service sc src st))).
  { apply leb_add_pos; [apply Ho|apply service_nonneg; assumption]. }
  destruct (orderly_push st (drain_round sc src st) _ (St.n st - 1) Ho Hle Hg)
    as (H1 & H2 & H3 & H4 & H5 & H6); try reflexivity; [lia|].
  rewrite drain_round_eq in *. simpl in *.
  split; [|assumption].
  constructor; simpl; auto; try apply Ho.
  - apply leb_refl, good_nonan, Hg.
  - intros E. congruence.
Qed.

Lemma orderly_step (st st' : State) :
  balanced sc st -> orderly sc st ->
  step sc src st = Continue st' -> orderly sc st'.
Proof.
  intros (Hn & HB0 & _ & _) Ho Hstep.
  apply step_Continue in Hstep.
  destruct Hstep as [(HA & H)|[(HB & H)|[(HC & H)|(_ & ->)]]]; [| | |assumption].
  - apply arrival_Continue in H. destruct H as (Tt & Ts' & HTs & ->).
    apply branch_A in HA. unfold condA in HA. apply andb_true_iff in HA.
    destruct HA as (HA1 & HA2).
    pose proof (ord_Ts_good _ _ Ho) as Hgood. rewrite HTs in Hgood.
    pose proof (ord_Ts _ _ Ho) as Hsorted. rewrite HTs in Hsorted.
    inversion Hgood as [|? ? Hg0 Hgood']; subst.
    inversion Hsorted as [|? ? Hsorted' Hhd]; subst.
    inversion Hhd; subst.
    match goal with
    | |- orderly _ ?s =>
        destruct (orderly_push st s (St.EL0 st) (St.n st + 1) Ho)
          as (H1 & H2 & H3 & H4 & H5 & H6); try reflexivity;
          [apply (ord_t_EL0 _ _ Ho HA2)|assumption|lia|]
    end.
    simpl in *. constructor; simpl; auto.
    + destruct (St.n st + 1 =? 1)%Z; [|apply Ho].
      apply good_add; [assumption|apply service_good].
    + destruct (St.n st + 1 =? 1)%Z; [|assumption].
      apply leb_add_pos; [assumption|apply service_nonneg; assumption].
  - apply departure_Continue in H. subst st'.
    apply branch_B in HB. destruct HB as (_ & HB).
    assert (Hn1 : (St.n st <> 0)%Z)
      by (intros E; rewrite (HB0 E) in HB; discriminate).
    unfold condB in HB. apply andb_true_iff in HB. destruct HB as (HB1 & HB2).
    match goal with
    | |- orderly _ ?s =>
        destruct (orderly_push st s (St.EL1 st) (St.n st - 1) Ho)
          as (H1 & H2 & H3 & H4 & H5 & H6); try reflexivity;
          [apply Ho|apply Ho|lia|]
    end.
    simpl in *. constructor; simpl; auto; try apply Ho.
    + destruct (St.n st - 1 >? 0)%Z; [|exact I].
      apply good_add; [apply Ho|apply service_good].
    + destruct (St.n st - 1 >? 0)%Z.
      * apply leb_add_pos; [apply Ho|apply service_nonneg; assumption].
      * apply leb_PInf, good_nonan, Ho.
    + intros _. apply ltb_leb, HB1.
  - apply drain_Continue in H. destruct H as (Hpos & ->).
    apply branch_C_EL0 in HC.
    apply (drain_loop_inv sc src (fun s =>
      orderly sc s /\ leb (St.EL0 s) (Fin (demand_duration sc)) = false)).
    + apply orderly_drain_round.
    + split; [|exact HC].
      destruct (orderly_push st (drain_first st) (St.EL1 st) (St.n st - 1) Ho)
        as (H1 & H2 & H3 & H4 & H5 & H6); try reflexivity;
        [apply Ho|apply Ho|lia|].
      simpl in *. constructor; simpl; auto; try apply Ho.
      * apply leb_refl, good_nonan, Ho.
      * intros E. congruence.
Qed.

Lemma orderly_entry (fuel : nat) (st0 : State) :
  0 < lam sc -> 0 <= t0 sc ->
  entry fuel src sc = Some (inr st0) -> orderly sc st0.
Proof.
  intros Hlam Ht0 He.
  apply entry_init in He. destruct He as (Ts & c & T0 & Ts' & Hp & Hs & ->).
  pose proof (pregen_nonneg sc src fuel Ts c Hsrc Hlam Ht0 Hp) as Hnn.
  assert (Hnn' : Forall nonneg (T0 :: Ts')).
  { rewrite <- Hs. apply sort_Forall, Hnn. }
  assert (Hsorted : ext_sorted (T0 :: Ts')).
  { rewrite <- Hs. apply sort_sorted.
    eapply Forall_impl; [|exact Hnn].
    intros x Hx. apply good_nonan, nonneg_good, Hx. }
  assert (Hgood : Forall good (T0 :: Ts')).
  { eapply Forall_impl; [|exact Hnn']. intros x. apply nonneg_good. }
  assert (H0 : le (Fin 0) T0).
  { inversion Hnn'; subst. destruct T0; unfold le; simpl in *;
      try contradiction; [qprop; assumption|reflexivity]. }
  constructor; simpl; auto; try (exists []; reflexivity).
  all: repeat constructor.
  apply Z.le_refl.
Qed.

End Trajectory.

(** C7.  A run of a scenario with positive rates and a non-negative travel
    time that ends returns [times] and [queue_lengths] of equal length;
    [times] starts with 0 and never decreases; [queue_lengths] starts with 0
    and has no negative element. *)
Theorem trajectory_shape (fuel : nat) (src : source) (sc : Scenario) (r : Result) :
  draws_ok src -> 0 < lam sc -> 0 < mu sc -> 0 <= t0 sc ->
  simulate fuel src sc = Some (inr r) ->
  length (r_times r) = length (r_queues r) /\
  ext_sorted (r_times r) /\
  (exists l, r_times r = Fin 0 :: l) /\
  Forall (fun q => (0 <= q)%Z) (r_queues r) /\
  (exists l, r_queues r = 0%Z :: l).
Proof.
  intros Hsrc Hlam Hmu Ht0 H.
  apply simulate_Some in H. destruct H as (st0 & st & He & Hm & ->).
  assert (Ho : orderly sc st0) by (eapply orderly_entry; eassumption).
  assert (Hb : balanced sc st0).
  { apply entry_init in He. destruct He as (? & ? & ? & ? & _ & _ & ->).
    apply balanced_init. }
  apply (main_loop_inv sc src (fun s => balanced sc s /\ orderly sc s)) in Hm.
  - destruct Hm as ((_ & Ho') & _). simpl.
    repeat split; apply Ho'.
  - intros s s' (Hb1 & Ho1) Hstep. split.
    + eapply balanced_step; eassumption.
    + eapply orderly_step; eassumption.
  - auto.
Qed.

(** ** Termination *)

Lemma pregen_mono (sc : Scenario) (src : source) (fuel : nat) :
  forall fuel' g Ts c r,
    (fuel <= fuel')%nat ->
    pregen fuel sc src g Ts c = Some r ->
    pregen fuel' sc src g Ts c = Some r.
Proof.
  induction fuel as [|fuel IH]; intros fuel' g Ts c r Hle H; [discriminate|].
  destruct fuel' as [|fuel']; [lia|].
  rewrite pregen_S in *.
  destruct (gtb (next_ta sc src g c) (Fin (demand_duration sc))); [assumption|].
  apply IH; [lia|assumption].
Qed.

Lemma main_loop_mono (sc : Scenario) (src : source) (fuel : nat) :
  forall fuel' st r,
    (fuel <= fuel')%nat ->
    main_loop fuel sc src st = Some r ->
    main_loop fuel' sc src st = Some r.
Proof.
  induction fuel as [|fuel IH]; intros fuel' st r Hle H; [discriminate|].
  destruct fuel' as [|fuel']; [lia|].
  simpl in *. destruct (step sc src st); try assumption.
  apply IH; [lia|assumption].
Qed.

Section MainLoopEnds.

Variable sc : Scenario.
Variable src : source.
Hypothesis Hsrc : draws_ok src.
Hypothesis Hmu : 0 < mu sc.

Lemma inv_step (st st' : State) :
  loop_inv sc st -> step sc src st = Continue st' -> loop_inv sc st'.
Proof.
  intros (Hb & Ho & Hs) Hstep. split; [|split].
  - eapply balanced_step; eassumption.
  - eapply orderly_step; eassumption.
  - eapply sentinel_step; eassumption.
Qed.

(** After the drain the next pass leaves the loop. *)
Lemma drained_breaks (st st' : State) :
  loop_inv sc st -> branch sc st = Some PhaseC ->
  step sc src st = Continue st' ->
  step sc src st' = Break st'.
Proof.
  intros Hi HC Hstep.
  pose proof (inv_step _ _ Hi Hstep) as (Hb' & Ho' & _).
  unfold step in Hstep. rewrite HC in Hstep.
  apply drain_Continue in Hstep. destruct Hstep as (Hpos & E).
  pose proof (drain_loop_slots sc src Hsrc Hmu (Z.to_nat (St.n st - 1))
                (drain_first st) eq_refl) as (_ & H0 & _).
  rewrite <- E in H0. simpl in H0.
  assert (Hn : St.n st' = 0%Z).
  { rewrite E. apply drain_loop_n. simpl. lia. }
  assert (Hle : leb (St.EL0 st') (Fin (demand_duration sc)) = false).
  { rewrite H0. apply branch_C_EL0, HC. }
  assert (HC' : branch sc st' = Some PhaseC).
  { apply branch_C. destruct Hb' as (_ & HB & _).
    unfold condA, condC. rewrite Hle, andb_false_r.
    repeat split; [apply HB, Hn|].
    pose proof (ord_Ts_good _ _ Ho') as Hg. apply Forall_inv in Hg.
    destruct (St.EL0 st'); unfold gtb; simpl in *; try contradiction;
      try discriminate; [|reflexivity].
    apply Qle_bool_false in Hle. apply Qltb_true in Hle. rewrite Hle.
    reflexivity. }
  unfold step. rewrite HC'. unfold drain. rewrite Hn. reflexivity.
Qed.

Lemma main_loop_ends (m : nat) :
  forall st, loop_inv sc st -> (measure st <= m)%nat ->
    exists st', main_loop (S (S m)) sc src st = Some (inr st').
Proof.
  induction m as [|m IH]; intros st Hi Hm;
    pose proof Hi as (Hb & Ho & Hs);
    destruct (step sc src st) as [st1|st1|e] eqn:E.
  - (* no fuel to spare: only the drain can go on *)
    apply step_Continue in E as Hc.
    destruct Hc as [(HA & H)|[(HB & H)|[(HC & H)|(HN & _)]]].
    + apply arrival_Continue in H. destruct H as (Tt & Ts' & HTs & _).
      unfold measure in Hm. rewrite HTs in Hm. simpl in Hm. lia.
    + apply branch_B in HB. destruct HB as (_ & HB).
      destruct Hb as (Hn & HB0 & _).
      assert (St.n st <> 0)%Z by (intros E0; rewrite (HB0 E0) in HB; discriminate).
      unfold measure in Hm. lia.
    + pose proof (drained_breaks _ _ Hi HC E) as Hbr.
      exists st1. cbn [main_loop]. rewrite E, Hbr. reflexivity.
    + exfalso. revert HN. apply branch_total; apply good_nonan.
      * pose proof (ord_Ts_good _ _ Ho) as Hg. apply Forall_inv in Hg. exact Hg.
      * apply Ho.
  - exists st1. cbn [main_loop]. rewrite E. reflexivity.
  - exfalso. eapply sentinel_no_raise; eassumption.
  - apply step_Continue in E as Hc.
    pose proof (inv_step _ _ Hi E) as Hi1.
    destruct Hc as [(HA & H)|[(HB & H)|[(HC & H)|(HN & _)]]].
    + apply arrival_Continue in H. destruct H as (Tt & Ts' & HTs & Hst1).
      destruct (IH st1 Hi1) as (st' & Hst').
      { destruct Hb as (Hn & _). unfold measure in *. rewrite HTs in Hm.
        rewrite Hst1. simpl in *. lia. }
      exists st'. change (main_loop (S (S (S m))) sc src st)
        with (match step sc src st with
              | Continue s => main_loop (S (S m)) sc src s
              | Break s => Some (inr s)
              | Raise e => Some (inl e)
              end).
      rewrite E. exact Hst'.
    + apply departure_Continue in H.
      apply branch_B in HB. destruct HB as (_ & HB).
      destruct (IH st1 Hi1) as (st' & Hst').
      { destruct Hb as (Hn & HB0 & _).
        assert (St.n st <> 0)%Z by (intros E0; rewrite (HB0 E0) in HB; discriminate).
        unfold measure in *. rewrite H. simpl in *. lia. }
      exists st'. change (main_loop (S (S (S m))) sc src st)
        with (match step sc src st with
              | Continue s => main_loop (S (S m)) sc src s
              | Break s => Some (inr s)
              | Raise e => Some (inl e)
              end).
      rewrite E. exact Hst'.
    + pose proof (drained_breaks _ _ Hi HC E) as Hbr.
      exists st1. cbn [main_loop]. rewrite E, Hbr. reflexivity.
    + exfalso. revert HN. apply branch_total; apply good_nonan.
      * pose proof (ord_Ts_good _ _ Ho) as Hg. apply Forall_inv in Hg. exact Hg.
      * apply Ho.
  - exists st1. cbn [main_loop]. rewrite E. reflexivity.
  - exfalso. eapply sentinel_no_raise; eassumption.
Qed.

Lemma inv_entry (fuel : nat) (st0 : State) :
  0 < lam sc -> 0 <= t0 sc ->
  entry fuel src sc = Some (inr st0) -> loop_inv sc st0.
Proof.
  intros Hlam Ht0 He. split; [|split].
  - apply entry_init in He as (? & ? & ? & ? & _ & _ & ->).
    apply balanced_init.
  - eapply orderly_entry; eassumption.
  - pose proof (entry_sentinel sc src fuel Hsrc) as H. rewrite He in H. exact H.
Qed.

End MainLoopEnds.

Lemma entry_mono (fuel fuel' : nat) (src : source) (sc : Scenario) (st0 : State) :
  (fuel <= fuel')%nat ->
  entry fuel src sc = Some (inr st0) ->
  entry fuel' src sc = Some (inr st0).
Proof.
  unfold entry. intros Hle.
  destruct (pregen fuel sc src (Generation_init (lam sc)) [] 0%nat)
    as [r|] eqn:E; [|discriminate].
  rewrite (pregen_mono sc src fuel fuel' _ _ _ r Hle E). auto.
Qed.

(** C9, as the code has it.  With positive rates, a non-negative travel
    time and draws as numpy yields them, once pre-generation has produced
    its list [simulate] ends: the main loop, drain included, makes at most
    [2 * len(Ts)] passes and a result is returned (with that much fuel and
    with any more).  Whether pre-generation produces its list is not
    settled by the draws being positive: see [clock_absorbs_small_draws]. *)
Theorem simulate_returns_once_generated (sc : Scenario) (src : source)
    (fuel : nat) (Ts : list ext) (c : nat) :
  draws_ok src -> 0 < lam sc -> 0 < mu sc -> 0 <= t0 sc ->
  pregen fuel sc src (Generation_init (lam sc)) [] 0%nat = Some (Ts, c) ->
  exists r,
    forall fuel', (fuel <= fuel')%nat -> (2 * length Ts <= fuel')%nat ->
      simulate fuel' src sc = Some (inr r).
Proof.
  intros Hsrc Hlam Hmu Ht0 Hp.
  pose proof (entry_sentinel sc src fuel Hsrc) as Hs.
  destruct (entry fuel src sc) as [[e|st0]|] eqn:He.
  - contradiction.
  - assert (Hi : loop_inv sc st0) by (eapply inv_entry; eassumption).
    destruct (main_loop_ends sc src Hsrc Hmu (measure st0) st0 Hi (Nat.le_refl _))
      as (st' & Hm).
    assert (Hlen : (S (S (measure st0)) = 2 * length Ts)%nat).
    { apply entry_init in He.
      destruct He as (Ts1 & c1 & T0 & Ts' & Hp1 & Hsort & ->).
      rewrite Hp in Hp1. inversion Hp1; subst Ts1 c1.
      pose proof (Permutation_length (sort_perm Ts)) as Hl.
      rewrite Hsort in Hl. unfold measure. simpl in *. lia. }
    exists (result_of st').
    intros fuel' Hle1 Hle2. unfold simulate.
    rewrite (entry_mono fuel fuel' src sc st0); [|exact Hle1|exact He].
    rewrite (main_loop_mono sc src (S (S (measure st0))) fuel' st0
               (inr st')); [|lia|exact Hm].
    reflexivity.
  - unfold entry in He. rewrite Hp in He.
    destruct (sort Ts); discriminate.
Qed.

(** ** The clock over binary64 numbers *)

Lemma F64_pregen_S (fuel : nat) (sc : F64.Scenario) (src : F64.source)
    (g : F64.Generation) (Ts : list PrimFloat.float) (c : nat) :
  F64.pregen (S fuel) sc src g Ts c =
  if PrimFloat.ltb (F64.demand_duration sc) (F64.next_ta sc src g c)
  then Some (Ts ++ [F64.next_ta sc src g c], S (S c))
  else F64.pregen fuel sc src
         {| F64.g_lam := F64.g_lam g; F64.g_time := F64.next_tg src g c |}
         (Ts ++ [F64.next_ta sc src g c]) (S (S c)).
Proof. reflexivity. Qed.

(** Once the clock stands at [stalled] a round adds [2^-53], which the sum
    rounds away, and generates an instant of about 37.7: the clock has not
    moved and the horizon of 50 is not passed. *)
Lemma F64_pregen_stalled (fuel : nat) :
  forall Ts c,
    F64.pregen fuel F64.default_scenario F64.absorbing
      {| F64.g_lam := F64.lam F64.default_scenario; F64.g_time := F64.stalled |}
      Ts (S (S c)) = None.
Proof.
  induction fuel as [|fuel IH]; intros Ts c; [reflexivity|].
  rewrite F64_pregen_S.
  change (F64.pregen fuel F64.default_scenario F64.absorbing
            {| F64.g_lam := F64.lam F64.default_scenario;
               F64.g_time := F64.stalled |}
            (Ts ++ [F64.next_ta F64.default_scenario F64.absorbing
                      {| F64.g_lam := F64.lam F64.default_scenario;
                         F64.g_time := F64.stalled |} (S (S c))])
            (S (S (S (S c)))) = None).
  apply IH.
Qed.

(** C9 as stated fails.  The default scenario has positive rates, horizon
    and travel time; every uniform draw of [absorbing] lies in the open
    interval (0,1) and every exponential duration and travel time made of
    one is positive and finite; and yet pre-generation never produces its
    list: after the first round the clock stands at 36.7368005696771, where
    adding a duration of [2^-53] leaves it unchanged, and no instant
    exceeds the horizon of 50. *)
Lemma clock_absorbs_small_draws :
  let sc := F64.default_scenario in
  F64.positive_finite (F64.lam sc) /\ F64.positive_finite (F64.mu sc) /\
  F64.positive_finite (F64.demand_duration sc) /\
  F64.positive_finite (F64.t0 sc) /\
  (forall k, F64.draw_open (F64.absorbing k)) /\
  (forall k, F64.positive_finite
               (fst (F64.exponential_rng (F64.lam sc) F64.absorbing k))) /\
  (forall k, F64.positive_finite
               (fst (F64.travel (F64.t0 sc) F64.absorbing k))) /\
  F64.next_tg F64.absorbing
    {| F64.g_lam := F64.lam sc; F64.g_time := F64.stalled |} 2 = F64.stalled /\
  forall fuel,
    F64.pregen fuel sc F64.absorbing (F64.Generation_init (F64.lam sc)) [] 0
    = None.
Proof.
  intros sc.
  repeat (split; [repeat split; reflexivity|]).
  split; [intros [|k]; repeat split; reflexivity|].
  split; [intros [|k]; repeat split; reflexivity|].
  split; [intros [|k]; repeat split; reflexivity|].
  split; [reflexivity|].
  intros [|fuel]; [reflexivity|].
  rewrite F64_pregen_S.
  apply (F64_pregen_stalled fuel _ 0%nat).
Qed.

(** In doubles the quotient of [exponential_rng] overflows to [+inf] for a
    tiny rate and rounds to 0 for a huge one, with draws inside (0,1). *)
Lemma F64_quotient_overflows_and_underflows :
  F64.draw_open (F64.halves 0%nat) /\
  fst (F64.exponential_rng F64.tiny_rate F64.halves 0) = PrimFloat.infinity /\
  F64.draw_open (F64.absorbing 1%nat) /\
  fst (F64.exponential_rng F64.huge_rate F64.absorbing 1) = PrimFloat.zero.
Proof. repeat split; reflexivity. Qed.

(** ** Sample runs *)

Lemma source_of_ok (l : list draw) (d : draw) :
  Forall draw_ok l -> draw_ok d -> draws_ok (source_of l d).
Proof.
  intros Hl Hd k. unfold source_of. revert k.
  induction Hl as [|x l Hx Hl IH]; intros [|k]; simpl; auto.
Qed.

(** Comparisons between given rationals, by computation. *)
Ltac qcompute :=
  first [ reflexivity | apply Qle_bool_iff; reflexivity
        | unfold Qle; simpl; lia ].

Ltac draw_check := unfold draw_ok; cbn [u_val u_neglog]; repeat split; qcompute.

Lemma demo_draws_ok : draws_ok demo_source.
Proof.
  apply source_of_ok;
    [repeat (apply Forall_cons; [draw_check|]); apply Forall_nil|draw_check].
Qed.

Lemma tie_draws_ok : draws_ok tie_source.
Proof.
  apply source_of_ok;
    [repeat (apply Forall_cons; [draw_check|]); apply Forall_nil|draw_check].
Qed.

Lemma tie_state_reached :
  exists st0,
    entry 3 tie_source tie_scenario = Some (inr st0) /\
    step tie_scenario tie_source st0 = Continue tie_state.
Proof. eexists. split; reflexivity. Qed.

Lemma overshoot_is_kept_last_witness :
  draws_ok demo_source /\
  pregen 2 demo_scenario demo_source (Generation_init (lam demo_scenario)) []
         0%nat = Some ([Fin (12 # 20); Fin (44 # 20)], 4%nat) /\
  exists pre x,
    [Fin (12 # 20); Fin (44 # 20)] = pre ++ [x] /\
    sort [Fin (12 # 20); Fin (44 # 20)] = sort pre ++ [x] /\
    Forall (fun y => leb y (Fin (demand_duration demo_scenario)) = true)
           (sort pre) /\
    gtb x (Fin (demand_duration demo_scenario)) = true.
Proof.
  split; [exact demo_draws_ok|]. split; [reflexivity|].
  apply (overshoot_is_kept_last demo_scenario demo_source 2 _ 4%nat);
    [exact demo_draws_ok|reflexivity].
Defined.

(** C1 as stated fails.  In the demo run the sorted list the main loop
    consumes is [0.6; 2.2] with a horizon of 1: its last element exceeds
    the horizon, and the first arrival's pull puts it into [EL[0]]. *)
Lemma overshoot_reaches_main_loop :
  draws_ok demo_source /\
  pregen 2 demo_scenario demo_source (Generation_init (lam demo_scenario)) []
         0%nat = Some ([Fin (12 # 20); Fin (44 # 20)], 4%nat) /\
  sort [Fin (12 # 20); Fin (44 # 20)] = [Fin (12 # 20); Fin (44 # 20)] /\
  ~ Forall (fun y => leb y (Fin (demand_duration demo_scenario)) = true)
           (sort [Fin (12 # 20); Fin (44 # 20)]) /\
  exists st1,
    step demo_scenario demo_source
         (init_state (Fin (12 # 20)) [Fin (44 # 20)] 4) = Continue st1 /\
    St.EL0 st1 = Fin (44 # 20).
Proof.
  split; [exact demo_draws_ok|]. split; [reflexivity|]. split; [reflexivity|].
  split.
  - intros H. simpl in H. inversion H as [|? ? _ H']; subst.
    inversion H' as [|? ? Hx _]; subst. discriminate Hx.
  - eexists. split; reflexivity.
Qed.

Lemma idle_server_has_no_departure_witness :
  let st0 := init_state (Fin (4 # 4)) [Fin (132 # 40); Fin (492 # 40)] 6 in
  let st2 := St.mk (Fin (132 # 40)) 2 2 0 (Fin (492 # 40)) (Fin (132 # 40)) []
                   7 [Fin 0; Fin (4 # 4); Fin (132 # 40)] [0%Z; 1%Z; 2%Z]
                   [Fin (4 # 4); Fin (132 # 40)] [] in
  let st3 := St.mk (Fin (132 # 40)) 1 2 1 (Fin (492 # 40)) (Fin (1600 # 400)) []
                   8 [Fin 0; Fin (4 # 4); Fin (132 # 40); Fin (132 # 40)]
                   [0%Z; 1%Z; 2%Z; 1%Z]
                   [Fin (4 # 4); Fin (132 # 40)] [Fin (132 # 40)] in
  let st4 := St.mk (Fin (1600 # 400)) 0 2 2 (Fin (492 # 40)) PInf []
                   8 [Fin 0; Fin (4 # 4); Fin (132 # 40); Fin (132 # 40);
                      Fin (1600 # 400)]
                   [0%Z; 1%Z; 2%Z; 1%Z; 0%Z]
                   [Fin (4 # 4); Fin (132 # 40)]
                   [Fin (132 # 40); Fin (1600 # 400)] in
  loop_head_AB tie_scenario tie_source st0 st4 /\
  ((0 <= St.n st4)%Z /\ (St.n st4 = 0%Z -> St.EL1 st4 = PInf)) /\
  (forall st', branch tie_scenario st4 = Some PhaseB ->
     step tie_scenario tie_source st4 = Continue st' ->
     St.n st' = 0%Z -> St.EL1 st' = PInf).
Proof.
  intros st0 st2 st3 st4.
  assert (H1 : loop_head_AB tie_scenario tie_source st0 tie_state).
  { apply (headAB_step _ _ _ st0 tie_state PhaseA);
      [apply headAB_entry|reflexivity|discriminate|reflexivity]. }
  assert (H2 : loop_head_AB tie_scenario tie_source st0 st2).
  { apply (headAB_step _ _ _ tie_state st2 PhaseA);
      [exact H1|reflexivity|discriminate|reflexivity]. }
  assert (H3 : loop_head_AB tie_scenario tie_source st0 st3).
  { apply (headAB_step _ _ _ st2 st3 PhaseB);
      [exact H2|reflexivity|discriminate|reflexivity]. }
  assert (H4 : loop_head_AB tie_scenario tie_source st0 st4).
  { apply (headAB_step _ _ _ st3 st4 PhaseB);
      [exact H3|reflexivity|discriminate|reflexivity]. }
  split; [exact H4|].
  exact (idle_server_has_no_departure tie_scenario tie_source
           (Fin (4 # 4)) [Fin (132 # 40); Fin (492 # 40)] 6%nat st4 H4).
Defined.

(** C2 on the code.  The departure branch before the horizon resets the
    departure slot to [+inf] when the queue empties; the drain after the
    horizon does not.  In the demo run the drain processes the one
    departure at 2.9 and returns to the top of the loop with the queue
    length at 0 and the departure slot still at 2.9, not [+inf]: the
    invariant (no customer, no pending departure) fails at that loop
    head. *)
Lemma drain_leaves_departure_slot :
  exists st0 st,
    entry 2 demo_source demo_scenario = Some (inr st0) /\
    loop_head demo_scenario demo_source st0 st /\
    St.n st = 0%Z /\ St.EL1 st = Fin (580 # 200) /\ St.EL1 st <> PInf.
Proof.
  eexists. eexists. split; [reflexivity|]. split.
  - eapply head_step; [eapply head_step; [apply head_entry|reflexivity]|].
    reflexivity.
  - simpl. repeat split. discriminate.
Qed.

Lemma parameters_unchecked_witness :
  let sc := mkScenario (-1) 1 1 1 in
  draws_ok demo_source /\ 0 < lam sc /\ 0 <= t0 sc /\ demand_duration sc < 0 /\
  Scenario_init (-1) 1 1 1 = inr sc /\
  simulate 1 demo_source sc = Some (inr empty_run).
Proof.
  intros sc.
  assert (H1 : 0 < lam sc) by reflexivity.
  assert (H2 : 0 <= t0 sc) by qcompute.
  assert (H3 : demand_duration sc < 0) by reflexivity.
  split; [exact demo_draws_ok|]. split; [exact H1|]. split; [exact H2|].
  split; [exact H3|]. split.
  - exact (proj1 parameters_unchecked (-1) 1 1 1).
  - exact (proj2 parameters_unchecked sc demo_source 0%nat demo_draws_ok H1 H2 H3).
Defined.

(** C3 as stated fails.  With a negative travel time nothing is raised:
    the scenario is constructed, the run processes an arrival at 0.45 and a
    departure at 2.75 and returns. *)
Lemma negative_travel_time_runs :
  let sc := mkScenario 1 (-1 # 2) 1 1 in
  t0 sc < 0 /\ draws_ok demo_source /\
  Scenario_init 1 (-1 # 2) 1 1 = inr sc /\
  simulate 3 demo_source sc
    = Some (inr (mkResult [Fin 0; Fin (18 # 40); Fin (1100 # 400)]
                          [0%Z; 1%Z; 0%Z]
                          [Fin (18 # 40)] [Fin (1100 # 400)])).
Proof.
  intros sc. split; [reflexivity|]. split; [exact demo_draws_ok|].
  split; reflexivity.
Qed.

Lemma tie_break_arrival_first_witness :
  eqb (St.EL0 tie_state) (St.EL1 tie_state) = true /\
  leb (St.EL0 tie_state) (Fin (demand_duration tie_scenario)) = true /\
  branch tie_scenario tie_state = Some PhaseA /\
  step tie_scenario tie_source tie_state = arrival tie_scenario tie_source tie_state /\
  (sentinel tie_scenario tie_state -> exists Tt Ts', St.Ts tie_state = Tt :: Ts') /\
  forall Tt Ts', St.Ts tie_state = Tt :: Ts' ->
    exists st', step tie_scenario tie_source tie_state = Continue st' /\
      St.t st' = St.EL0 tie_state /\
      St.n st' = (St.n tie_state + 1)%Z /\
      St.queues st' = St.queues tie_state ++ [(St.n tie_state + 1)%Z] /\
      St.times st' = St.times tie_state ++ [St.EL0 tie_state] /\
      St.As st' = St.As tie_state ++ [St.EL0 tie_state] /\
      St.Ds st' = St.Ds tie_state.
Proof.
  assert (H1 : eqb (St.EL0 tie_state) (St.EL1 tie_state) = true) by reflexivity.
  assert (H2 : leb (St.EL0 tie_state) (Fin (demand_duration tie_scenario)) = true)
    by reflexivity.
  split; [exact H1|]. split; [exact H2|].
  exact (tie_break_arrival_first tie_scenario tie_source tie_state H1 H2).
Defined.

Lemma full_drain_witness :
  let r := mkResult [Fin 0; Fin (4 # 4); Fin (132 # 40); Fin (132 # 40);
                     Fin (1600 # 400)]
                    [0%Z; 1%Z; 2%Z; 1%Z; 0%Z]
                    [Fin (4 # 4); Fin (132 # 40)]
                    [Fin (132 # 40); Fin (1600 # 400)] in
  draws_ok tie_source /\ 0 < mu tie_scenario /\
  simulate 6 tie_source tie_scenario = Some (inr r) /\
  (exists q, r_queues r = q ++ [0%Z]) /\
  length (r_As r) = length (r_Ds r).
Proof.
  intros r.
  assert (H1 : 0 < mu tie_scenario) by reflexivity.
  assert (H2 : simulate 6 tie_source tie_scenario = Some (inr r)) by reflexivity.
  split; [exact tie_draws_ok|]. split; [exact H1|]. split; [exact H2|].
  exact (full_drain 6 tie_source tie_scenario r tie_draws_ok H1 H2).
Defined.

Lemma trajectory_shape_witness :
  let r := mkResult [Fin 0; Fin (12 # 20); Fin (580 # 200)] [0%Z; 1%Z; 0%Z]
                    [Fin (12 # 20)] [Fin (580 # 200)] in
  draws_ok demo_source /\ 0 < lam demo_scenario /\ 0 < mu demo_scenario /\
  0 <= t0 demo_scenario /\
  simulate 3 demo_source demo_scenario = Some (inr r) /\
  length (r_times r) = length (r_queues r) /\
  ext_sorted (r_times r) /\
  (exists l, r_times r = Fin 0 :: l) /\
  Forall (fun q => (0 <= q)%Z) (r_queues r) /\
  (exists l, r_queues r = 0%Z :: l).
Proof.
  intros r.
  assert (H1 : 0 < lam demo_scenario) by reflexivity.
  assert (H2 : 0 < mu demo_scenario) by reflexivity.
  assert (H3 : 0 <= t0 demo_scenario) by qcompute.
  assert (H4 : simulate 3 demo_source demo_scenario = Some (inr r)) by reflexivity.
  split; [exact demo_draws_ok|]. split; [exact H1|]. split; [exact H2|].
  split; [exact H3|]. split; [exact H4|].
  exact (trajectory_shape 3 demo_source demo_scenario r demo_draws_ok H1 H2 H3 H4).
Defined.

Lemma zero_horizon_witness :
  let sc := mkScenario (1 # 4) 1 1 1 in
  gtb (first_instant sc demo_source) (Fin (demand_duration sc)) = true /\
  pregen 1 sc demo_source (Generation_init (lam sc)) [] 0%nat
    = Some ([first_instant sc demo_source], 2%nat) /\
  simulate 1 demo_source sc = Some (inr (mkResult [Fin 0] [0%Z] [] [])).
Proof.
  intros sc.
  assert (H : gtb (first_instant sc demo_source) (Fin (demand_duration sc)) = true)
    by reflexivity.
  split; [exact H|].
  exact (zero_horizon sc demo_source 0 H).
Defined.

Lemma simulate_returns_once_generated_witness :
  draws_ok demo_source /\ 0 < lam demo_scenario /\ 0 < mu demo_scenario /\
  0 <= t0 demo_scenario /\
  pregen 2 demo_scenario demo_source (Generation_init (lam demo_scenario)) []
         0%nat = Some ([Fin (12 # 20); Fin (44 # 20)], 4%nat) /\
  exists r,
    forall fuel', (2 <= fuel')%nat ->
      (2 * length [Fin (12 # 20); Fin (44 # 20)] <= fuel')%nat ->
      simulate fuel' demo_source demo_scenario = Some (inr r).
Proof.
  assert (H1 : 0 < lam demo_scenario) by reflexivity.
  assert (H2 : 0 < mu demo_scenario) by reflexivity.
  assert (H3 : 0 <= t0 demo_scenario) by qcompute.
  assert (H4 : pregen 2 demo_scenario demo_source
                 (Generation_init (lam demo_scenario)) [] 0%nat
               = Some ([Fin (12 # 20); Fin (44 # 20)], 4%nat)) by reflexivity.
  split; [exact demo_draws_ok|]. split; [exact H1|]. split; [exact H2|].
  split; [exact H3|]. split; [exact H4|].
  exact (simulate_returns_once_generated demo_scenario demo_source 2 _ 4%nat
           demo_draws_ok H1 H2 H3 H4).
Defined.

Lemma no_stop_iteration_witness :
  draws_ok demo_source /\
  entry 3 demo_source demo_scenario <> Some (inl StopIteration) /\
  (forall st0 st,
     entry 3 demo_source demo_scenario = Some (inr st0) ->
     loop_head demo_scenario demo_source st0 st ->
     sentinel demo_scenario st /\
     step demo_scenario demo_source st <> Raise StopIteration) /\
  simulate 3 demo_source demo_scenario <> Some (inl StopIteration).
Proof.
  split; [exact demo_draws_ok|].
  exact (no_stop_iteration 3 demo_source demo_scenario StopIteration demo_draws_ok).
Defined.

(** * Further properties of a run *)

(** ** The trajectory as a ledger *)

Lemma walk_snoc (l : list Z) (a b : Z) :
  unit_walk (l ++ [a]) -> b = (a + 1)%Z \/ b = (a - 1)%Z ->
  unit_walk ((l ++ [a]) ++ [b]).
Proof.
  unfold unit_walk. intros Hs Hab. induction l as [|x l IH]; simpl in *.
  - constructor; [constructor; constructor|constructor; exact Hab].
  - inversion Hs as [|? ? Hs' Hhd]; subst. constructor; [apply IH, Hs'|].
    destruct l as [|y l]; simpl in *; inversion Hhd; subst; constructor; assumption.
Qed.

Lemma perm_push_arrival (T A D : list ext) (z t : ext) :
  Permutation T (z :: A ++ D) ->
  Permutation (T ++ [t]) (z :: (A ++ [t]) ++ D).
Proof.
  intros H. rewrite <- app_assoc. simpl.
  rewrite <- Permutation_cons_append.
  rewrite H. rewrite perm_swap. constructor. apply Permutation_middle.
Qed.

Lemma perm_push_departure (T A D : list ext) (z t : ext) :
  Permutation T (z :: A ++ D) ->
  Permutation (T ++ [t]) (z :: A ++ D ++ [t]).
Proof.
  intros H. rewrite app_assoc.
  change (z :: (A ++ D) ++ [t]) with ((z :: A ++ D) ++ [t]).
  apply Permutation_app_tail, H.
Qed.

Section Ledger.

Variable sc : Scenario.
Variable src : source.

Lemma ledger_departure (st st' : State) (t : ext) :
  ledger st ->
  St.n st' = (St.n st - 1)%Z ->
  St.queues st' = St.queues st ++ [(St.n st - 1)%Z] ->
  St.times st' = St.times st ++ [t] ->
  St.As st' = St.As st ->
  St.Ds st' = St.Ds st ++ [t] ->
  ledger st'.
Proof.
  intros [Hw (q & Hq) Hp] Hn Hqs Hts HAs HDs.
  constructor.
  - rewrite Hqs, Hq. apply walk_snoc; [rewrite <- Hq; exact Hw|auto].
  - rewrite Hqs, Hn. eexists. reflexivity.
  - rewrite Hts, HAs, HDs. apply perm_push_departure, Hp.
Qed.

Lemma ledger_step (st st' : State) :
  ledger st -> step sc src st = Continue st' -> ledger st'.
Proof.
  intros Hl Hstep. apply step_Continue in Hstep.
  destruct Hstep as [(_ & H)|[(_ & H)|[(_ & H)|(_ & ->)]]]; [| | |assumption].
  - apply arrival_Continue in H. destruct H as (Tt & Ts' & _ & ->).
    destruct Hl as [Hw (q & Hq) Hp]. constructor; simpl.
    + rewrite Hq. apply walk_snoc; [rewrite <- Hq; exact Hw|auto].
    + eexists. reflexivity.
    + apply perm_push_arrival, Hp.
  - apply departure_Continue in H. subst st'.
    eapply ledger_departure; [exact Hl|reflexivity..].
  - apply drain_Continue in H. destruct H as (_ & ->).
    apply drain_loop_inv.
    + intros s Hs _. rewrite drain_round_eq.
      eapply ledger_departure; [exact Hs|reflexivity..].
    + eapply ledger_departure; [exact Hl|reflexivity..].
Qed.

Lemma ledger_init (T0 : ext) (Ts : list ext) (c : nat) :
  ledger (init_state T0 Ts c).
Proof.
  constructor; simpl.
  - repeat constructor.
  - exists []. reflexivity.
  - reflexivity.
Qed.

End Ledger.

(** X2.  In the result of any run that returns, whatever the scenario and
    the draws, [times] is the initial 0 together with the arrival and the
    departure times, each as often as it was recorded; so
    [len(times) = 1 + len(arrival_times) + len(departure_times)]. *)
Theorem times_are_arrivals_and_departures (fuel : nat) (src : source)
    (sc : Scenario) (r : Result) :
  simulate fuel src sc = Some (inr r) ->
  Permutation (r_times r) (Fin 0 :: r_As r ++ r_Ds r) /\
  length (r_times r) = S (length (r_As r) + length (r_Ds r)).
Proof.
  intros H. apply simulate_Some in H. destruct H as (st0 & st & He & Hm & ->).
  apply entry_init in He. destruct He as (Ts & c & T0 & Ts' & _ & _ & ->).
  apply (main_loop_inv sc src ledger) in Hm.
  - destruct Hm as ([_ _ Hp] & _). simpl. split; [exact Hp|].
    apply Permutation_length in Hp. simpl in Hp. rewrite length_app in Hp.
    exact Hp.
  - intros s s'. apply ledger_step.
  - apply ledger_init.
Qed.

Lemma times_are_arrivals_and_departures_witness :
  let r := mkResult [Fin 0; Fin (4 # 4); Fin (132 # 40); Fin (132 # 40);
                     Fin (1600 # 400)]
                    [0%Z; 1%Z; 2%Z; 1%Z; 0%Z]
                    [Fin (4 # 4); Fin (132 # 40)]
                    [Fin (132 # 40); Fin (1600 # 400)] in
  simulate 6 tie_source tie_scenario = Some (inr r) /\
  Permutation (r_times r) (Fin 0 :: r_As r ++ r_Ds r) /\
  length (r_times r) = S (length (r_As r) + length (r_Ds r)).
Proof.
  intros r.
  assert (H : simulate 6 tie_source tie_scenario = Some (inr r)) by reflexivity.
  split; [exact H|].
  exact (times_are_arrivals_and_departures 6 tie_source tie_scenario r H).
Defined.

(** X3.  In the result of any run that returns, whatever the scenario and
    the draws, consecutive queue lengths differ by exactly one: every event
    recorded is one customer arriving or one customer leaving. *)
Theorem queue_moves_by_one (fuel : nat) (src : source) (sc : Scenario)
    (r : Result) :
  simulate fuel src sc = Some (inr r) ->
  unit_walk (r_queues r).
Proof.
  intros H. apply simulate_Some in H. destruct H as (st0 & st & He & Hm & ->).
  apply entry_init in He. destruct He as (Ts & c & T0 & Ts' & _ & _ & ->).
  apply (main_loop_inv sc src ledger) in Hm.
  - destruct Hm as ([Hw _ _] & _). exact Hw.
  - intros s s'. apply ledger_step.
  - apply ledger_init.
Qed.

Lemma queue_moves_by_one_witness :
  let r := mkResult [Fin 0; Fin (4 # 4); Fin (132 # 40); Fin (132 # 40);
                     Fin (1600 # 400)]
                    [0%Z; 1%Z; 2%Z; 1%Z; 0%Z]
                    [Fin (4 # 4); Fin (132 # 40)]
                    [Fin (132 # 40); Fin (1600 # 400)] in
  simulate 6 tie_source tie_scenario = Some (inr r) /\
  unit_walk (r_queues r).
Proof.
  intros r.
  assert (H : simulate 6 tie_source tie_scenario = Some (inr r)) by reflexivity.
  split; [exact H|].
  exact (queue_moves_by_one 6 tie_source tie_scenario r H).
Defined.

(** ** Which arrivals are processed *)

Lemma app_snoc_split (A P Ts : list ext) (e x : ext) :
  A ++ e :: Ts = P ++ [x] -> ~ In e P ->
  A = P /\ Ts = [] /\ e = x.
Proof.
  revert P. induction A as [|a A IH]; intros P H Hin; simpl in H.
  - destruct P as [|p P]; simpl in H.
    + inversion H. auto.
    + inversion H; subst. exfalso. apply Hin. left. reflexivity.
  - destruct P as [|p P]; simpl in H.
    + inversion H. destruct A; discriminate.
    + inversion H; subst.
      destruct (IH P) as (-> & -> & ->); auto.
      intros Hc. apply Hin. right. exact Hc.
Qed.

Lemma sort_length (l : list ext) : length (sort l) = length l.
Proof. symmetry. apply Permutation_length, sort_perm. Qed.

Section Served.

Variable sc : Scenario.
Variable src : source.

Lemma drain_loop_As (k : nat) (st0 : State) :
  let st' := drain_loop k sc src st0 in
  St.As st' = St.As st0 /\ St.EL0 st' = St.EL0 st0 /\ St.Ts st' = St.Ts st0.
Proof.
  simpl. apply (drain_loop_inv sc src (fun st' =>
    St.As st' = St.As st0 /\ St.EL0 st' = St.EL0 st0 /\ St.Ts st' = St.Ts st0));
    [|auto].
  intros st (H1 & H2 & H3) _. rewrite drain_round_eq. simpl. auto.
Qed.

Lemma served_step (full : list ext) (st st' : State) :
  served full st -> step sc src st = Continue st' -> served full st'.
Proof.
  unfold served. intros Hf Hstep. apply step_Continue in Hstep.
  destruct Hstep as [(_ & H)|[(_ & H)|[(_ & H)|(_ & ->)]]]; [| | |assumption].
  - apply arrival_Continue in H. destruct H as (Tt & Ts' & HTs & ->).
    simpl. rewrite <- app_assoc. simpl. rewrite <- HTs. exact Hf.
  - apply departure_Continue in H. subst st'. simpl. exact Hf.
  - apply drain_Continue in H. destruct H as (_ & ->).
    destruct (drain_loop_As (Z.to_nat (St.n st - 1)) (drain_first st))
      as (H1 & H2 & H3).
    rewrite H1, H2, H3. simpl. exact Hf.
Qed.

End Served.

Lemma main_loop_arrivals (sc : Scenario) (src : source) (fuel fuel' : nat)
    (Ts Ts' : list ext) (T0 : ext) (c : nat) (st : State) :
  draws_ok src ->
  pregen fuel sc src (Generation_init (lam sc)) [] 0%nat = Some (Ts, c) ->
  sort Ts = T0 :: Ts' ->
  main_loop fuel' sc src (init_state T0 Ts' c) = Some (inr st) ->
  exists pre x,
    Ts = pre ++ [x] /\ St.As st = sort pre /\
    Forall (fun y => leb y (Fin (demand_duration sc)) = true) (sort pre) /\
    ext_sorted (sort pre).
Proof.
  intros Hsrc Hp Hs Hm.
  pose proof (pregen_nonan sc src fuel Ts c Hsrc Hp) as Hnn.
  destruct (sorted_arrivals sc src fuel Ts c Hsrc Hp)
    as (pre & x & -> & Hsp & Hpre & Hx).
  apply (main_loop_inv sc src (served (T0 :: Ts'))) in Hm.
  - destruct Hm as (Hf & Hb). apply step_Break in Hb.
    destruct Hb as (HC & _ & _). apply branch_C_EL0 in HC.
    unfold served in Hf. rewrite <- Hs, Hsp in Hf.
    assert (Hpre' : Forall (fun y => leb y (Fin (demand_duration sc)) = true)
                           (sort pre)) by (apply sort_Forall, Hpre).
    apply app_snoc_split in Hf.
    + destruct Hf as (HA & _ & _). exists pre, x. repeat split; auto.
      apply sort_sorted. apply Forall_app in Hnn. apply Hnn.
    + intros Hin. rewrite Forall_forall in Hpre'. apply Hpre' in Hin.
      congruence.
  - intros s s'. apply served_step.
  - reflexivity.
Qed.

(** X4.  In any run that returns, with draws as numpy yields them and
    whatever the scenario, [arrival_times] is exactly the sorted list of the
    pre-generated instants without the last one generated (the one beyond
    the horizon): every generated instant within the horizon is processed
    as an arrival, once and in ascending order, and no arrival is processed
    after the horizon. *)
Theorem arrivals_are_the_sorted_instants (fuel : nat) (src : source)
    (sc : Scenario) (r : Result) :
  draws_ok src ->
  simulate fuel src sc = Some (inr r) ->
  exists pre x c,
    pregen fuel sc src (Generation_init (lam sc)) [] 0%nat
      = Some (pre ++ [x], c) /\
    r_As r = sort pre /\
    length (r_As r) = length pre /\
    Forall (fun y => leb y (Fin (demand_duration sc)) = true) (r_As r) /\
    ext_sorted (r_As r).
Proof.
  intros Hsrc H.
  apply simulate_Some in H. destruct H as (st0 & st & He & Hm & ->).
  apply entry_init in He. destruct He as (Ts & c & T0 & Ts' & Hp & Hs & ->).
  destruct (main_loop_arrivals sc src fuel fuel Ts Ts' T0 c st Hsrc Hp Hs Hm)
    as (pre & x & -> & HA & Hle & Hso).
  exists pre, x, c. simpl. rewrite HA. repeat split; auto.
  apply sort_length.
Qed.

Lemma arrivals_are_the_sorted_instants_witness :
  let r := mkResult [Fin 0; Fin (4 # 4); Fin (132 # 40); Fin (132 # 40);
                     Fin (1600 # 400)]
                    [0%Z; 1%Z; 2%Z; 1%Z; 0%Z]
                    [Fin (4 # 4); Fin (132 # 40)]
                    [Fin (132 # 40); Fin (1600 # 400)] in
  draws_ok tie_source /\
  simulate 6 tie_source tie_scenario = Some (inr r) /\
  exists pre x c,
    pregen 6 tie_scenario tie_source (Generation_init (lam tie_scenario)) []
           0%nat = Some (pre ++ [x], c) /\
    r_As r = sort pre /\
    length (r_As r) = length pre /\
    Forall (fun y => leb y (Fin (demand_duration tie_scenario)) = true)
           (r_As r) /\
    ext_sorted (r_As r).
Proof.
  intros r.
  assert (H : simulate 6 tie_source tie_scenario = Some (inr r)) by reflexivity.
  split; [exact tie_draws_ok|]. split; [exact H|].
  exact (arrivals_are_the_sorted_instants 6 tie_source tie_scenario r
           tie_draws_ok H).
Defined.

(** ** A negative rate *)

Section NegativeRate.

Variable sc : Scenario.
Variable src : source.
Hypothesis Hsrc : draws_ok src.
Hypothesis Hlam : lam sc < 0.
Hypothesis Ht0 : 0 <= t0 sc.
Hypothesis Hdd : t0 sc <= demand_duration sc.

Lemma nonpos_round (g : Generation) (c : nat) :
  g_lam g = lam sc -> nonpos (g_time g) ->
  nonpos (next_tg src g c) /\
  gtb (next_ta sc src g c) (Fin (demand_duration sc)) = false.
Proof.
  intros Hg Ht.
  assert (Htg : nonpos (next_tg src g c)).
  { unfold next_tg. rewrite Hg.
    destruct (Hsrc c) as (_ & _ & Hl).
    destruct (u_neglog (src c)) as [l| | |]; try contradiction; simpl.
    - destruct (Qeq_bool (lam sc) 0) eqn:E; [qprop; lra|].
      destruct Hl as (_ & Hl & _).
      assert (l / lam sc <= 0).
      { setoid_replace (l / lam sc) with ((- l) / (- lam sc)) by (field; lra).
        apply Qle_shift_div_r; lra. }
      destruct (g_time g); simpl in *; try contradiction; auto. lra.
    - assert (E : Qle_bool 0 (lam sc) = false) by (qprop; lra).
      rewrite E. destruct (g_time g); simpl in *; try contradiction; auto. }
  split; [exact Htg|].
  unfold next_ta. destruct (Hsrc (S c)) as (Hu0 & Hu1 & _).
  assert (t0 sc * u_val (src (S c)) <= t0 sc).
  { setoid_replace (t0 sc) with (t0 sc * 1) at 2 by ring.
    destruct (Qle_lt_or_eq _ _ Ht0) as [Hpos|Heq].
    - apply Qmult_le_l; [assumption|]. apply Qlt_le_weak, Hu1.
    - rewrite <- Heq. lra. }
  destruct (next_tg src g c); unfold gtb; simpl in *; try contradiction;
    [|reflexivity].
  qprop. lra.
Qed.

Lemma pregen_negative_rate (fuel : nat) :
  forall g Ts c,
    g_lam g = lam sc -> nonpos (g_time g) ->
    pregen fuel sc src g Ts c = None.
Proof.
  induction fuel as [|fuel IH]; intros g Ts c Hg Ht; [reflexivity|].
  rewrite pregen_S. destruct (nonpos_round g c Hg Ht) as (Htg & Hta).
  rewrite Hta. apply IH; [exact Hg|exact Htg].
Qed.

End NegativeRate.

(** X9.  A negative arrival rate raises nothing either: with a travel time
    between 0 and the horizon the generation clock only moves backwards, no
    arrival instant ever exceeds the horizon, and pre-generation (with it
    [simulate]) never ends, however many rounds it is given. *)
Theorem negative_rate_never_returns (sc : Scenario) (src : source) (fuel : nat) :
  draws_ok src -> lam sc < 0 -> 0 <= t0 sc -> t0 sc <= demand_duration sc ->
  pregen fuel sc src (Generation_init (lam sc)) [] 0%nat = None /\
  simulate fuel src sc = None.
Proof.
  intros Hsrc Hlam Ht0 Hdd.
  assert (Hp : pregen fuel sc src (Generation_init (lam sc)) [] 0%nat = None).
  { apply pregen_negative_rate; auto. simpl. apply Qle_refl. }
  split; [exact Hp|]. unfold simulate, entry. rewrite Hp. reflexivity.
Qed.

Lemma negative_rate_never_returns_witness :
  let sc := mkScenario 50 1 (-1) 1 in
  draws_ok demo_source /\ lam sc < 0 /\ 0 <= t0 sc /\
  t0 sc <= demand_duration sc /\
  pregen 100 sc demo_source (Generation_init (lam sc)) [] 0%nat = None /\
  simulate 100 demo_source sc = None.
Proof.
  intros sc.
  assert (H1 : lam sc < 0) by reflexivity.
  assert (H2 : 0 <= t0 sc) by qcompute.
  assert (H3 : t0 sc <= demand_duration sc) by qcompute.
  split; [exact demo_draws_ok|]. split; [exact H1|]. split; [exact H2|].
  split; [exact H3|].
  exact (negative_rate_never_returns sc demo_source 100 demo_draws_ok H1 H2 H3).
Defined.

(** ** The order of arrivals and departures *)

Lemma Forall_le_trans (l : list ext) (t t' : ext) :
  Forall (fun x => le x t) l -> le t t' -> Forall (fun x => le x t') l.
Proof.
  intros Hf Hle. eapply Forall_impl; [|exact Hf].
  intros x Hx. exact (leb_trans _ _ _ Hx Hle).
Qed.

Lemma firstn_snoc (l : list ext) :
  forall k, (k < length l)%nat ->
    exists a, firstn (S k) l = firstn k l ++ [a] /\ In a l.
Proof.
  induction l as [|x l IH]; intros k Hk; simpl in Hk; [lia|].
  destruct k as [|k].
  - exists x. simpl. auto.
  - destruct (IH k) as (a & Ha & Hin); [lia|].
    exists a. split; [|right; exact Hin].
    change (firstn (S (S k)) (x :: l)) with (x :: firstn (S k) l).
    rewrite Ha. reflexivity.
Qed.

Lemma chron_departure (st st' : State) (t' : ext) :
  chron st -> le (St.t st) t' -> good t' ->
  (length (St.Ds st) < length (St.As st))%nat ->
  St.t st' = t' -> St.As st' = St.As st -> St.Ds st' = St.Ds st ++ [t'] ->
  chron st'.
Proof.
  intros [HDs HDt HAt Hp] Hle Hg Hlen Ht HA HD.
  destruct (times_push _ _ _ HDs HDt Hle Hg) as (HDs' & HDt').
  constructor; rewrite ?Ht, ?HA, ?HD; auto.
  - eapply Forall_le_trans; eassumption.
  - rewrite length_app. simpl. rewrite Nat.add_1_r.
    destruct (firstn_snoc (St.As st) (length (St.Ds st)) Hlen) as (a & -> & Hin).
    apply Forall2_app; [exact Hp|]. constructor; [|constructor].
    rewrite Forall_forall in HAt. exact (leb_trans _ _ _ (HAt a Hin) Hle).
Qed.

Lemma chron_arrival (st st' : State) (t' : ext) :
  chron st -> le (St.t st) t' -> good t' ->
  (length (St.Ds st) <= length (St.As st))%nat ->
  St.t st' = t' -> St.As st' = St.As st ++ [t'] -> St.Ds st' = St.Ds st ->
  chron st'.
Proof.
  intros [HDs HDt HAt Hp] Hle Hg Hlen Ht HA HD.
  constructor; rewrite ?Ht, ?HA, ?HD; auto.
  - eapply Forall_le_trans; eassumption.
  - apply Forall_app. split; [eapply Forall_le_trans; eassumption|].
    constructor; [|constructor]. apply leb_refl, good_nonan, Hg.
  - rewrite firstn_app.
    replace (length (St.Ds st) - length (St.As st))%nat with 0%nat by lia.
    simpl. rewrite app_nil_r. exact Hp.
Qed.

Section Chronology.

Variable sc : Scenario.
Variable src : source.
Hypothesis Hsrc : draws_ok src.
Hypothesis Hmu : 0 < mu sc.

(** What the drain keeps round after round. *)
Lemma chron_drain_round (st : State) :
  let P := fun s =>
    chron s /\ orderly sc s /\
    leb (St.EL0 s) (Fin (demand_duration sc)) = false /\
    Z.of_nat (length (St.As s)) = (Z.of_nat (length (St.Ds s)) + St.n s)%Z in
  P st -> (St.n st > 0)%Z -> P (drain_round sc src st).
Proof.
  intros P (Hc & Ho & Hdd & Hn) Hpos.
  destruct (orderly_drain_round sc src Hsrc Hmu st (conj Ho Hdd) Hpos)
    as (Ho' & Hdd').
  unfold P. split; [|split; [exact Ho'|split; [exact Hdd'|]]].
  - eapply (chron_departure st _ (add (St.t st) (service sc src st)));
      [exact Hc| | |lia|reflexivity..].
    + apply leb_add_pos; [apply Ho|apply service_nonneg; assumption].
    + apply good_add; [apply Ho|apply service_good; assumption].
  - rewrite drain_round_eq. simpl. rewrite length_app. simpl. lia.
Qed.

Lemma chron_step (st st' : State) :
  balanced sc st -> orderly sc st -> chron st ->
  step sc src st = Continue st' -> chron st'.
Proof.
  intros (Hn & HB0 & _ & Hcount) Ho Hc Hstep.
  apply step_Continue in Hstep.
  destruct Hstep as [(HA & H)|[(HB & H)|[(HC & H)|(_ & ->)]]]; [| | |assumption].
  - apply arrival_Continue in H. destruct H as (Tt & Ts' & HTs & ->).
    apply branch_A in HA. unfold condA in HA. apply andb_true_iff in HA.
    destruct HA as (_ & HA2).
    eapply (chron_arrival st _ (St.EL0 st)); [exact Hc| | |lia|reflexivity..].
    + apply (ord_t_EL0 _ _ Ho HA2).
    + pose proof (ord_Ts_good _ _ Ho) as Hg. apply Forall_inv in Hg. exact Hg.
  - apply departure_Continue in H. subst st'.
    apply branch_B in HB. destruct HB as (_ & HB).
    assert (Hn1 : (St.n st <> 0)%Z)
      by (intros E; rewrite (HB0 E) in HB; discriminate).
    eapply (chron_departure st _ (St.EL1 st)); [exact Hc| | |lia|reflexivity..];
      apply Ho.
  - apply drain_Continue in H. destruct H as (Hpos & ->).
    apply branch_C_EL0 in HC.
    assert (Ho1 : orderly sc (drain_first st)).
    { destruct (orderly_push sc st (drain_first st) (St.EL1 st) (St.n st - 1) Ho)
        as (H1 & H2 & H3 & H4 & H5 & H6); try reflexivity;
        [apply Ho|apply Ho|lia|].
      simpl in *. constructor; simpl; auto; try apply Ho.
      - apply leb_refl, good_nonan, Ho.
      - intros E. congruence. }
    apply (drain_loop_inv sc src (fun s =>
      chron s /\ orderly sc s /\
      leb (St.EL0 s) (Fin (demand_duration sc)) = false /\
      Z.of_nat (length (St.As s)) = (Z.of_nat (length (St.Ds s)) + St.n s)%Z)).
    + apply chron_drain_round.
    + split; [|split; [exact Ho1|split; [exact HC|]]].
      * eapply (chron_departure st _ (St.EL1 st));
          [exact Hc| | |lia|reflexivity..]; apply Ho.
      * simpl. rewrite length_app. simpl. lia.
Qed.

Lemma chron_init (T0 : ext) (Ts : list ext) (c : nat) :
  chron (init_state T0 Ts c).
Proof. constructor; simpl; constructor. Qed.

End Chronology.

Lemma main_loop_chron (fuel fuel' : nat) (src : source) (sc : Scenario)
    (st0 st : State) :
  draws_ok src -> 0 < lam sc -> 0 < mu sc -> 0 <= t0 sc ->
  entry fuel src sc = Some (inr st0) ->
  main_loop fuel' sc src st0 = Some (inr st) ->
  chron st /\ length (St.As st) = length (St.Ds st).
Proof.
  intros Hsrc Hlam Hmu Ht0 He Hm.
  assert (Ho : orderly sc st0) by (eapply orderly_entry; eassumption).
  apply entry_init in He. destruct He as (Ts & c & T0 & Ts' & _ & _ & ->).
  apply (main_loop_inv sc src
           (fun s => balanced sc s /\ orderly sc s /\ chron s)) in Hm.
  - destruct Hm as (((Hn & _ & _ & Hc) & _ & Hch) & Hb).
    apply step_Break in Hb. destruct Hb as (_ & _ & Hle).
    split; [exact Hch|]. lia.
  - intros s s' (Hb1 & Ho1 & Hc1) Hstep. split; [|split].
    + eapply balanced_step; eassumption.
    + eapply orderly_step; eassumption.
    + eapply chron_step; eassumption.
  - split; [apply balanced_init|]. split; [exact Ho|apply chron_init].
Qed.

(** X5.  In a run that returns, of a scenario with positive rates and a
    non-negative travel time, [departure_times] never decreases. *)
Theorem departures_never_decrease (fuel : nat) (src : source) (sc : Scenario)
    (r : Result) :
  draws_ok src -> 0 < lam sc -> 0 < mu sc -> 0 <= t0 sc ->
  simulate fuel src sc = Some (inr r) ->
  ext_sorted (r_Ds r).
Proof.
  intros Hsrc Hlam Hmu Ht0 H.
  apply simulate_Some in H. destruct H as (st0 & st & He & Hm & ->).
  destruct (main_loop_chron fuel fuel src sc st0 st Hsrc Hlam Hmu Ht0 He Hm)
    as (Hch & _).
  apply Hch.
Qed.

Lemma departures_never_decrease_witness :
  let r := mkResult [Fin 0; Fin (4 # 4); Fin (132 # 40); Fin (132 # 40);
                     Fin (1600 # 400)]
                    [0%Z; 1%Z; 2%Z; 1%Z; 0%Z]
                    [Fin (4 # 4); Fin (132 # 40)]
                    [Fin (132 # 40); Fin (1600 # 400)] in
  draws_ok tie_source /\ 0 < lam tie_scenario /\ 0 < mu tie_scenario /\
  0 <= t0 tie_scenario /\
  simulate 6 tie_source tie_scenario = Some (inr r) /\
  ext_sorted (r_Ds r).
Proof.
  intros r.
  assert (H1 : 0 < lam tie_scenario) by reflexivity.
  assert (H2 : 0 < mu tie_scenario) by reflexivity.
  assert (H3 : 0 <= t0 tie_scenario) by qcompute.
  assert (H4 : simulate 6 tie_source tie_scenario = Some (inr r)) by reflexivity.
  split; [exact tie_draws_ok|]. split; [exact H1|]. split; [exact H2|].
  split; [exact H3|]. split; [exact H4|].
  exact (departures_never_decrease 6 tie_source tie_scenario r tie_draws_ok
           H1 H2 H3 H4).
Defined.

(** X6.  In a run that returns, of a scenario with positive rates and a
    non-negative travel time, the departure of each rank is not before the
    arrival of the same rank: the [k]-th element of [departure_times] is at
    least the [k]-th element of [arrival_times], for every [k]. *)
Theorem no_departure_before_arrival (fuel : nat) (src : source) (sc : Scenario)
    (r : Result) :
  draws_ok src -> 0 < lam sc -> 0 < mu sc -> 0 <= t0 sc ->
  simulate fuel src sc = Some (inr r) ->
  Forall2 le (r_As r) (r_Ds r).
Proof.
  intros Hsrc Hlam Hmu Ht0 H.
  apply simulate_Some in H. destruct H as (st0 & st & He & Hm & ->).
  destruct (main_loop_chron fuel fuel src sc st0 st Hsrc Hlam Hmu Ht0 He Hm)
    as (Hch & Hlen).
  pose proof (chr_pairs _ Hch) as Hp.
  rewrite <- Hlen, firstn_all in Hp. exact Hp.
Qed.

Lemma no_departure_before_arrival_witness :
  let r := mkResult [Fin 0; Fin (4 # 4); Fin (132 # 40); Fin (132 # 40);
                     Fin (1600 # 400)]
                    [0%Z; 1%Z; 2%Z; 1%Z; 0%Z]
                    [Fin (4 # 4); Fin (132 # 40)]
                    [Fin (132 # 40); Fin (1600 # 400)] in
  draws_ok tie_source /\ 0 < lam tie_scenario /\ 0 < mu tie_scenario /\
  0 <= t0 tie_scenario /\
  simulate 6 tie_source tie_scenario = Some (inr r) /\
  Forall2 le (r_As r) (r_Ds r).
Proof.
  intros r.
  assert (H1 : 0 < lam tie_scenario) by reflexivity.
  assert (H2 : 0 < mu tie_scenario) by reflexivity.
  assert (H3 : 0 <= t0 tie_scenario) by qcompute.
  assert (H4 : simulate 6 tie_source tie_scenario = Some (inr r)) by reflexivity.
  split; [exact tie_draws_ok|]. split; [exact H1|]. split; [exact H2|].
  split; [exact H3|]. split; [exact H4|].
  exact (no_departure_before_arrival 6 tie_source tie_scenario r tie_draws_ok
           H1 H2 H3 H4).
Defined.

(** ** How much of the source a run consumes *)

Lemma pregen_cursor (sc : Scenario) (src : source) (fuel : nat) :
  forall g Ts c Ts' c',
    pregen fuel sc src g Ts c = Some (Ts', c') ->
    (c' + 2 * length Ts = c + 2 * length Ts')%nat.
Proof.
  induction fuel as [|fuel IH]; intros g Ts c Ts' c' H; [discriminate|].
  rewrite pregen_S in H.
  destruct (gtb (next_ta sc src g c) (Fin (demand_duration sc))).
  - inversion H; subst. rewrite length_app. simpl. lia.
  - apply IH in H. rewrite length_app in H. simpl in H. lia.
Qed.

Section Drawn.

Variable sc : Scenario.
Variable src : source.
Variable c0 : nat.

Lemma drawn_drain_round (st : State) :
  let P := fun s =>
    St.cur s = (c0 + length (St.Ds s))%nat /\ (0 <= St.n s)%Z in
  P st -> (St.n st > 0)%Z -> P (drain_round sc src st).
Proof.
  intros P (Hc & Hn) Hpos. unfold P. rewrite drain_round_eq. simpl.
  rewrite length_app. simpl. lia.
Qed.

Lemma drawn_step (st st' : State) :
  (0 <= St.n st)%Z -> (St.n st = 0%Z -> condB sc st = false) ->
  drawn c0 st -> step sc src st = Continue st' -> drawn c0 st'.
Proof.
  unfold drawn. intros Hn HB0 Hd Hstep.
  apply step_Continue in Hstep.
  destruct Hstep as [(_ & H)|[(HB & H)|[(_ & H)|(_ & ->)]]]; [| | |assumption].
  - apply arrival_Continue in H. destruct H as (Tt & Ts' & _ & ->). simpl.
    destruct (St.n st + 1 =? 1)%Z eqn:E1; destruct (St.n st >? 0)%Z eqn:E2;
      destruct (St.n st + 1 >? 0)%Z eqn:E3; lia.
  - apply departure_Continue in H. subst st'.
    apply branch_B in HB. destruct HB as (_ & HB).
    assert (Hn1 : (St.n st <> 0)%Z)
      by (intros E; rewrite (HB0 E) in HB; discriminate).
    simpl. rewrite length_app. simpl.
    destruct (St.n st >? 0)%Z eqn:E2; destruct (St.n st - 1 >? 0)%Z eqn:E3; lia.
  - apply drain_Continue in H. destruct H as (Hpos & E).
    assert (HP : St.cur st' = (c0 + length (St.Ds st'))%nat /\ (0 <= St.n st')%Z).
    { rewrite E. apply (drain_loop_inv sc src (fun s =>
        St.cur s = (c0 + length (St.Ds s))%nat /\ (0 <= St.n s)%Z)).
      - apply drawn_drain_round.
      - simpl. rewrite length_app. simpl.
        destruct (St.n st >? 0)%Z eqn:E2; lia. }
    assert (Hn' : St.n st' = 0%Z).
    { rewrite E. apply drain_loop_n. simpl. lia. }
    destruct HP as (HP & _). rewrite HP, Hn'. simpl. lia.
Qed.

End Drawn.

(** X7.  A run that returns (service rate positive, draws as numpy yields
    them) has taken from the uniform source exactly two draws for each
    instant generated, which are the arrivals processed and the one instant
    beyond the horizon, and one draw for each departure: when the main
    loop is left the cursor stands at
    [2 * (len(arrival_times) + 1) + len(departure_times)]. *)
Theorem draws_consumed (fuel : nat) (src : source) (sc : Scenario)
    (st0 st : State) :
  draws_ok src -> 0 < mu sc ->
  entry fuel src sc = Some (inr st0) ->
  main_loop fuel sc src st0 = Some (inr st) ->
  St.cur st0 = (2 * S (length (St.As st)))%nat /\
  St.cur st = (2 * S (length (St.As st)) + length (St.Ds st))%nat.
Proof.
  intros Hsrc Hmu He Hm.
  apply entry_init in He. destruct He as (Ts & c & T0 & Ts' & Hp & Hs & ->).
  destruct (main_loop_arrivals sc src fuel fuel Ts Ts' T0 c st Hsrc Hp Hs Hm)
    as (pre & x & -> & HA & _ & _).
  apply pregen_cursor in Hp. rewrite length_app in Hp. simpl in Hp.
  assert (Hc : c = (2 * S (length (St.As st)))%nat).
  { rewrite HA, sort_length. lia. }
  split; [exact Hc|].
  apply (main_loop_inv sc src (fun s => balanced sc s /\ drawn c s)) in Hm.
  - destruct Hm as (((Hn & _) & Hd) & Hb).
    apply step_Break in Hb. destruct Hb as (_ & _ & Hle).
    unfold drawn in Hd. rewrite Hd, <- Hc.
    destruct (St.n st >? 0)%Z eqn:E; lia.
  - intros s s' (Hb1 & Hd1) Hstep. split.
    + eapply balanced_step; eassumption.
    + destruct Hb1 as (Hn1 & HB1 & _). eapply drawn_step; eassumption.
  - split; [apply balanced_init|]. unfold drawn. simpl. lia.
Qed.

Lemma draws_consumed_witness :
  let st0 := init_state (Fin (4 # 4)) [Fin (132 # 40); Fin (492 # 40)] 6 in
  let st := St.mk (Fin (1600 # 400)) 0 2 2 (Fin (492 # 40)) PInf [] 8
                  [Fin 0; Fin (4 # 4); Fin (132 # 40); Fin (132 # 40);
                   Fin (1600 # 400)]
                  [0%Z; 1%Z; 2%Z; 1%Z; 0%Z]
                  [Fin (4 # 4); Fin (132 # 40)]
                  [Fin (132 # 40); Fin (1600 # 400)] in
  draws_ok tie_source /\ 0 < mu tie_scenario /\
  entry 6 tie_source tie_scenario = Some (inr st0) /\
  main_loop 6 tie_scenario tie_source st0 = Some (inr st) /\
  St.cur st0 = (2 * S (length (St.As st)))%nat /\
  St.cur st = (2 * S (length (St.As st)) + length (St.Ds st))%nat.
Proof.
  intros st0 st.
  assert (H1 : 0 < mu tie_scenario) by reflexivity.
  assert (H2 : entry 6 tie_source tie_scenario = Some (inr st0)) by reflexivity.
  assert (H3 : main_loop 6 tie_scenario tie_source st0 = Some (inr st))
    by reflexivity.
  split; [exact tie_draws_ok|]. split; [exact H1|]. split; [exact H2|].
  split; [exact H3|].
  exact (draws_consumed 6 tie_source tie_scenario st0 st tie_draws_ok H1 H2 H3).
Defined.

(** ** Where the event-list invariant stops *)

(** X10.  In a run of a scenario with positive rates and a non-negative
    travel time, the only loop head at which the queue length is 0 while
    the departure slot is not [+inf] is the one at which the loop is left:
    at every loop head, either the slot is [+inf] whenever the queue length
    is 0, or the pass made there is the [break]. *)
Theorem idle_invariant_until_exit (fuel : nat) (src : source) (sc : Scenario)
    (st0 st : State) :
  draws_ok src -> 0 < lam sc -> 0 < mu sc -> 0 <= t0 sc ->
  entry fuel src sc = Some (inr st0) ->
  loop_head sc src st0 st ->
  (St.n st = 0%Z -> St.EL1 st = PInf) \/ step sc src st = Break st.
Proof.
  intros Hsrc Hlam Hmu Ht0 He Hh.
  assert (Hi0 : loop_inv sc st0) by (eapply inv_entry; eassumption).
  apply entry_init in He. destruct He as (Ts & c & T0 & Ts' & _ & _ & ->).
  assert (H : loop_inv sc st /\ (idle_inv st \/ step sc src st = Break st)).
  { revert st Hh.
    apply (loop_head_inv sc src (fun s =>
      loop_inv sc s /\ (idle_inv s \/ step sc src s = Break s))).
    - intros s s' (Hi & Hd) Hstep.
      split; [eapply inv_step; eassumption|].
      assert (Hidle : idle_inv s).
      { destruct Hd as [Hd|Hd]; [exact Hd|congruence]. }
      apply step_Continue in Hstep as Hc.
      destruct Hc as [(HA & _)|[(HB & _)|[(HC & _)|(_ & ->)]]].
      + left. eapply idle_inv_step; [exact Hidle|exact HA|discriminate|exact Hstep].
      + left. eapply idle_inv_step; [exact Hidle|exact HB|discriminate|exact Hstep].
      + right. eapply drained_breaks; eassumption.
      + left. exact Hidle.
    - split; [exact Hi0|]. left. split; simpl; [lia|reflexivity]. }
  destruct H as (_ & [(_ & Hidle)|Hb]); auto.
Qed.

Lemma idle_invariant_until_exit_witness :
  let st0 := init_state (Fin (12 # 20)) [Fin (44 # 20)] 4 in
  let st := St.mk (Fin (580 # 200)) 0 1 1 (Fin (44 # 20)) (Fin (580 # 200)) []
                  5 [Fin 0; Fin (12 # 20); Fin (580 # 200)] [0%Z; 1%Z; 0%Z]
                  [Fin (12 # 20)] [Fin (580 # 200)] in
  draws_ok demo_source /\ 0 < lam demo_scenario /\ 0 < mu demo_scenario /\
  0 <= t0 demo_scenario /\
  entry 2 demo_source demo_scenario = Some (inr st0) /\
  loop_head demo_scenario demo_source st0 st /\
  ((St.n st = 0%Z -> St.EL1 st = PInf) \/
   step demo_scenario demo_source st = Break st).
Proof.
  intros st0 st.
  assert (H1 : 0 < lam demo_scenario) by reflexivity.
  assert (H2 : 0 < mu demo_scenario) by reflexivity.
  assert (H3 : 0 <= t0 demo_scenario) by qcompute.
  assert (H4 : entry 2 demo_source demo_scenario = Some (inr st0)) by reflexivity.
  assert (H5 : loop_head demo_scenario demo_source st0 st).
  { eapply head_step; [eapply head_step; [apply head_entry|reflexivity]|].
    reflexivity. }
  split; [exact demo_draws_ok|]. split; [exact H1|]. split; [exact H2|].
  split; [exact H3|]. split; [exact H4|]. split; [exact H5|].
  exact (idle_invariant_until_exit 2 demo_source demo_scenario st0 st
           demo_draws_ok H1 H2 H3 H4 H5).
Defined.

(** ** How a run ends *)

Section Closing.

Variable sc : Scenario.
Variable src : source.

Lemma closing_step (st st' : State) :
  (0 <= St.n st)%Z -> closing st ->
  step sc src st = Continue st' -> closing st'.
Proof.
  intros Hn Hc Hstep. apply step_Continue in Hstep.
  destruct Hstep as [(_ & H)|[(_ & H)|[(_ & H)|(_ & ->)]]]; [| | |assumption].
  - apply arrival_Continue in H. destruct H as (Tt & Ts' & _ & ->).
    intros E. simpl in E. lia.
  - apply departure_Continue in H. subst st'.
    intros _. right. simpl. eauto.
  - apply drain_Continue in H. destruct H as (_ & ->).
    intros _. right.
    apply (drain_loop_inv sc src (fun s =>
      exists l1 l2 x, St.times s = l1 ++ [x] /\ St.Ds s = l2 ++ [x])).
    + intros s _ _. rewrite drain_round_eq. simpl. eauto.
    + simpl. eauto.
Qed.

End Closing.

(** X11.  A run that returns (service rate positive, draws as numpy yields
    them) either has recorded nothing but the initial entry, or ends with a
    departure: the last element of [times] is the last element of
    [departure_times]. *)
Theorem run_ends_with_departure (fuel : nat) (src : source) (sc : Scenario)
    (r : Result) :
  draws_ok src -> 0 < mu sc ->
  simulate fuel src sc = Some (inr r) ->
  r = empty_run \/
  exists l1 l2 x, r_times r = l1 ++ [x] /\ r_Ds r = l2 ++ [x].
Proof.
  intros Hsrc Hmu H.
  apply simulate_Some in H. destruct H as (st0 & st & He & Hm & ->).
  apply entry_init in He. destruct He as (Ts & c & T0 & Ts' & _ & _ & ->).
  apply (main_loop_inv sc src (fun s => balanced sc s /\ closing s)) in Hm.
  - destruct Hm as (((Hn & _) & Hc) & Hb).
    apply step_Break in Hb. destruct Hb as (_ & _ & Hle).
    destruct Hc as [(H1 & H2 & H3 & H4)|Hc]; [lia| |].
    + left. unfold result_of, empty_run. rewrite H1, H2, H3, H4. reflexivity.
    + right. exact Hc.
  - intros s s' (Hb1 & Hc1) Hstep. split.
    + eapply balanced_step; eassumption.
    + destruct Hb1 as (Hn1 & _). eapply closing_step; eassumption.
  - split; [apply balanced_init|]. intros _. left. simpl. auto.
Qed.

Lemma run_ends_with_departure_witness :
  let r := mkResult [Fin 0; Fin (12 # 20); Fin (580 # 200)] [0%Z; 1%Z; 0%Z]
                    [Fin (12 # 20)] [Fin (580 # 200)] in
  draws_ok demo_source /\ 0 < mu demo_scenario /\
  simulate 3 demo_source demo_scenario = Some (inr r) /\
  (r = empty_run \/
   exists l1 l2 x, r_times r = l1 ++ [x] /\ r_Ds r = l2 ++ [x]).
Proof.
  intros r.
  assert (H1 : 0 < mu demo_scenario) by reflexivity.
  assert (H2 : simulate 3 demo_source demo_scenario = Some (inr r)) by reflexivity.
  split; [exact demo_draws_ok|]. split; [exact H1|]. split; [exact H2|].
  exact (run_ends_with_departure 3 demo_source demo_scenario r demo_draws_ok
           H1 H2).
Defined.
